(** * Travel Companion chatbot: the text pipeline of [app.py]

    A shallow embedding of the pure part of [src/app.py]: the record parser
    [parse_raw_info], the content filter [clean_places_to_visit], the two
    formatters, the intent detection of the chat turn and its one-entry
    session cache.

    Modelling choices.
    - A Python [str] is a [list ascii]; the model covers the code points
      below 128, on which the character classes below are those of CPython
      ([str.isspace], [str.lower], [str.title], and [\s], [\d], [\w], [\b]
      of the [re] module for [str] patterns).
    - A [dict] is an association list in insertion order, with Python's
      update-in-place assignment.
    - The three regular expressions of the source are values of a small
      [regex] type, run by a backtracking matcher with ordered choice and
      greedy repetition, which is how [re] matches.
    - The provider [get_destination_info] and [detect_language] are
      collaborators of the chat turn: they are section variables, the
      provider threading a state of its own. *)

From Stdlib Require Import Ascii String List Bool Arith Lia.
Import ListNotations.

Set Implicit Arguments.

(** ** Characters and strings *)

Definition str := list ascii.

Definition L (s : string) : str := list_ascii_of_string s.

Definition code (c : ascii) : nat := nat_of_ascii c.

Definition in_range (lo hi : nat) (c : ascii) : bool :=
  (lo <=? code c) && (code c <=? hi).

(** [str.isspace] on ASCII: TAB, LF, VT, FF, CR, the separators FS, GS, RS,
    US, and the space. It is also the class [\s]. *)
Definition isspace (c : ascii) : bool := in_range 9 13 c || in_range 28 32 c.

(** [\d] *)
Definition isdigit (c : ascii) : bool := in_range 48 57 c.

Definition isupper (c : ascii) : bool := in_range 65 90 c.
Definition islower (c : ascii) : bool := in_range 97 122 c.
Definition isalpha (c : ascii) : bool := isupper c || islower c.

(** [\w] *)
Definition isword (c : ascii) : bool :=
  isalpha c || isdigit c || Ascii.eqb c "_"%char.

Definition lower_char (c : ascii) : ascii :=
  if isupper c then ascii_of_nat (code c + 32) else c.

Definition upper_char (c : ascii) : ascii :=
  if islower c then ascii_of_nat (code c - 32) else c.

(** [s.lower()] *)
Definition lower (s : str) : str := map lower_char s.

(** [s.title()]: a letter is upper-cased when the character before it is
    not a letter, and lower-cased otherwise. *)
Fixpoint title_from (prev_cased : bool) (s : str) : str :=
  match s with
  | [] => []
  | c :: s' =>
      (if prev_cased then lower_char c else upper_char c)
        :: title_from (isalpha c) s'
  end.

Definition title (s : str) : str := title_from false s.

Fixpoint lstrip (s : str) : str :=
  match s with
  | c :: s' => if isspace c then lstrip s' else s
  | [] => []
  end.

Definition rstrip (s : str) : str := rev (lstrip (rev s)).

(** [s.strip()] *)
Definition strip (s : str) : str := rstrip (lstrip s).

Fixpoint drop_char (x : ascii) (s : str) : str :=
  match s with
  | c :: s' => if Ascii.eqb c x then drop_char x s' else s
  | [] => []
  end.

(** [s.rstrip(x)] for a one-character [x] *)
Definition rstrip_char (x : ascii) (s : str) : str :=
  rev (drop_char x (rev s)).

(** [s.endswith(x)] for a one-character [x] *)
Definition endswith_char (x : ascii) (s : str) : bool :=
  match rev s with
  | c :: _ => Ascii.eqb c x
  | [] => false
  end.

Definition str_eqb (a b : str) : bool :=
  if list_eq_dec ascii_dec a b then true else false.

(** [strip_prefix p s] is the rest of [s] after its prefix [p]. *)
Fixpoint strip_prefix (p s : str) : option str :=
  match p, s with
  | [], _ => Some s
  | a :: p', c :: s' => if Ascii.eqb a c then strip_prefix p' s' else None
  | _ :: _, [] => None
  end.

Definition startswith (p s : str) : bool :=
  match strip_prefix p s with Some _ => true | None => false end.

(** [needle in hay] *)
Fixpoint contains (needle hay : str) : bool :=
  startswith needle hay ||
  match hay with
  | [] => false
  | _ :: hay' => contains needle hay'
  end.

(** [s.split(sep)] for a one-character [sep] *)
Fixpoint split (sep : ascii) (s : str) : list str :=
  match s with
  | [] => [[]]
  | c :: s' =>
      if Ascii.eqb c sep then [] :: split sep s'
      else match split sep s' with
           | x :: xs => (c :: x) :: xs
           | [] => [[c]]
           end
  end.

(** [sep.join(items)] *)
Fixpoint join (sep : str) (items : list str) : str :=
  match items with
  | [] => []
  | [x] => x
  | x :: xs => x ++ sep ++ join sep xs
  end.

(** ** Regular expressions

    The fragment of [re] that the source uses. [Plus] and [Rep] repeat a
    character class; [Grp] is the capturing group number 1. *)

Inductive regex : Type :=
| Lit (l : str)
| Cls (p : ascii -> bool)
| Rep (n : nat) (p : ascii -> bool)
| Plus (p : ascii -> bool)
| Seq (r1 r2 : regex)
| Alt (r1 r2 : regex)
| WordB
| EndS
| Grp (r : regex).

(** The matcher's position: the character before it, the text after it, and
    the text captured so far. *)
Record mstate : Type := MState {
  m_prev : option ascii;
  m_rest : str;
  m_group : option str
}.

Definition isword_opt (o : option ascii) : bool :=
  match o with Some c => isword c | None => false end.

Definition last_char (l : str) (d : option ascii) : option ascii :=
  match rev l with c :: _ => Some c | [] => d end.

Section Matcher.
Variable A : Type.

(** [p+], greedy: one more character first, stop here on failure. *)
Fixpoint plus_match (p : ascii -> bool) (rest : str) (g : option str)
    (k : mstate -> option A) : option A :=
  match rest with
  | c :: rest' =>
      if p c then
        match plus_match p rest' g k with
        | Some a => Some a
        | None => k (MState (Some c) rest' g)
        end
      else None
  | [] => None
  end.

(** [p{n}] *)
Fixpoint rep_match (n : nat) (p : ascii -> bool) (st : mstate)
    (k : mstate -> option A) : option A :=
  match n with
  | 0 => k st
  | S n' =>
      match m_rest st with
      | c :: rest' =>
          if p c then rep_match n' p (MState (Some c) rest' (m_group st)) k
          else None
      | [] => None
      end
  end.

Fixpoint re_match (r : regex) (st : mstate) (k : mstate -> option A)
    : option A :=
  match r with
  | Lit l =>
      match strip_prefix l (m_rest st) with
      | Some rest' => k (MState (last_char l (m_prev st)) rest' (m_group st))
      | None => None
      end
  | Cls p => rep_match 1 p st k
  | Rep n p => rep_match n p st k
  | Plus p => plus_match p (m_rest st) (m_group st) k
  | Seq r1 r2 => re_match r1 st (fun st1 => re_match r2 st1 k)
  | Alt r1 r2 =>
      match re_match r1 st k with
      | Some a => Some a
      | None => re_match r2 st k
      end
  | WordB =>
      if xorb (isword_opt (m_prev st)) (isword_opt (hd_error (m_rest st)))
      then k st else None
  | EndS =>
      match m_rest st with
      | [] => k st
      | [c] => if Ascii.eqb c "010"%char then k st else None
      | _ => None
      end
  | Grp r1 =>
      re_match r1 st (fun st1 =>
        k (MState (m_prev st1) (m_rest st1)
             (Some (firstn (length (m_rest st) - length (m_rest st1))
                      (m_rest st)))))
  end.
End Matcher.

(** A match anchored at the position [st]. *)
Definition match_here (r : regex) (prev : option ascii) (s : str)
    : option mstate :=
  re_match r (MState prev s None) (fun st => Some st).

(** [re.search(r, s)]: the first position, from the left, with a match. The
    result is the start index and the matcher's final position. *)
Fixpoint search_from (r : regex) (prev : option ascii) (s : str) (pos : nat)
    : option (nat * mstate) :=
  match match_here r prev s with
  | Some st => Some (pos, st)
  | None =>
      match s with
      | [] => None
      | c :: s' => search_from r (Some c) s' (S pos)
      end
  end.

Definition re_search (r : regex) (s : str) : option (nat * mstate) :=
  search_from r None s 0.

(** [re.split(r, s)] for a pattern that is one capturing group and matches
    no empty text: the text before each match, then the match. [skip]
    counts the characters of the current match still to pass, [acc] holds
    the current text piece, reversed. *)
Fixpoint split_from (r : regex) (prev : option ascii) (s : str) (skip : nat)
    (acc : str) : list str :=
  match s with
  | [] => [rev acc]
  | c :: s' =>
      match skip with
      | S n => split_from r (Some c) s' n acc
      | 0 =>
          match match_here r prev s with
          | Some st =>
              match length s - length (m_rest st), m_group st with
              | S n, Some g => rev acc :: g :: split_from r (Some c) s' n []
              | _, _ => split_from r (Some c) s' 0 (c :: acc)
              end
          | None => split_from r (Some c) s' 0 (c :: acc)
          end
      end
  end.

Definition re_split (r : regex) (s : str) : list str :=
  split_from r None s 0 [].

(** An alternation of literals, as ['|'.join] of escaped texts builds it. *)
Fixpoint alt_of (lits : list str) : regex :=
  match lits with
  | [] => Lit []
  | [l] => Lit l
  | l :: ls => Alt (Lit l) (alt_of ls)
  end.

(** ** [clean_places_to_visit] *)

(** [r'\b\d{4}\b'] *)
Definition year_re : regex := Seq WordB (Seq (Rep 4 isdigit) WordB).

Definition keywords : list str :=
  [L "election"; L "film"; L "movie"; L "race"; L "title"].

Definition no_sites : str := L "No specific sites listed.".

Definition has_year (item : str) : bool :=
  match re_search year_re item with Some _ => true | None => false end.

Definition has_keyword (item : str) : bool :=
  existsb (fun keyword => contains keyword (lower item)) keywords.

(** The test of the loop body that skips an item. *)
Definition skipped (item : str) : bool := has_year item || has_keyword item.

Definition clean_places_to_visit (raw_places_string : str) : str :=
  match raw_places_string with
  | [] => no_sites
  | _ =>
      let items := map strip (split ","%char raw_places_string) in
      let cleaned_items := filter (fun item => negb (skipped item)) items in
      match cleaned_items with
      | [] => no_sites
      | _ => join (L ", ") cleaned_items
      end
  end.

(** ** Dictionaries *)

Definition dict := list (str * str).

Fixpoint dict_get (d : dict) (k : str) : option str :=
  match d with
  | [] => None
  | (k', v) :: d' => if str_eqb k' k then Some v else dict_get d' k
  end.

(** [d[k] = v]: an existing key keeps its place. *)
Fixpoint dict_set (d : dict) (k v : str) : dict :=
  match d with
  | [] => [(k, v)]
  | (k', v') :: d' =>
      if str_eqb k' k then (k', v) :: d' else (k', v') :: dict_set d' k v
  end.

(** ** [parse_raw_info] *)

Definition keys : list str :=
  [L "Destination"; L "Country"; L "Coordinates";
   L "Standard Time / Timezone"; L "Currency"; L "Current Weather";
   L "Places to Visit"; L "Description (short)"; L "Travel Tips"].

Definition delimiters : list str := map (fun k => k ++ L ":") keys.

(** [f"({pattern})"] *)
Definition pattern : regex := Grp (alt_of delimiters).

(** The loop over [parts]. A [current_key] that is [None] or empty is
    false in the test [elif current_key]. *)
Fixpoint fill (parts : list str) (current_key : option str)
    (parsed_data : dict) : dict :=
  match parts with
  | [] => parsed_data
  | part :: parts' =>
      match strip part with
      | [] => fill parts' current_key parsed_data
      | _ :: _ =>
          if endswith_char ":" part then
            fill parts' (Some (strip (rstrip_char ":" part))) parsed_data
          else
            match current_key with
            | Some (c :: key) =>
                fill parts' None (dict_set parsed_data (c :: key) (strip part))
            | _ => fill parts' current_key parsed_data
            end
      end
  end.

Definition parse_raw_info (info_text : str) : dict :=
  match info_text with
  | [] => []
  | _ => fill (re_split pattern info_text) None []
  end.

(** ** [format_info_for_chat] and [extract_field] *)

Definition nl : str := ["010"%char].

Definition places_key : str := L "Places to Visit".

Definition long_keys : list str :=
  [L "Description (short)"; places_key; L "Travel Tips"].

Definition mem (x : str) (l : list str) : bool := existsb (str_eqb x) l.

Definition format_entry (kv : str * str) : list str :=
  let (key, value) := kv in
  if mem key long_keys then
    let cleaned_value :=
      if str_eqb key places_key then clean_places_to_visit value else value in
    [nl ++ L "---"; L "**" ++ key ++ L ":**" ++ nl ++ cleaned_value ++ nl]
  else
    [L "*" ++ key ++ L ":* **" ++ value ++ L "**"].

Definition format_info_for_chat (parsed_data : dict) : str :=
  match parsed_data with
  | [] => L "No destination information available."
  | _ => join nl (flat_map format_entry parsed_data)
  end.

Definition extract_field (parsed_data : dict) (field_name : str) : str :=
  match parsed_data with
  | [] =>
      L "Sorry, I couldn't find " ++ lower field_name ++ L " information."
  | _ =>
      match dict_get parsed_data field_name with
      | Some value =>
          let value :=
            if str_eqb field_name places_key
            then clean_places_to_visit value else value in
          L "**" ++ field_name ++ L ":** " ++ value
      | None =>
          L "Sorry, I couldn't find " ++ lower field_name
            ++ L " information for that destination."
      end
  end.

(** ** The chat turn *)

Definition greetings : list str := [L "hi"; L "hello"; L "hey"; L "hola"].

Definition farewells : list str :=
  [L "bye"; L "goodbye"; L "see you"; L "exit"; L "quit"].

(** The dictionary [fields], in the order it is written. *)
Definition fields : list (str * str) :=
  [(L "country", L "Country");
   (L "coordinate", L "Coordinates");
   (L "location", L "Coordinates");
   (L "time", L "Standard Time / Timezone");
   (L "timezone", L "Standard Time / Timezone");
   (L "currency", L "Currency");
   (L "weather", L "Current Weather");
   (L "place", places_key);
   (L "attraction", places_key);
   (L "description", L "Description (short)");
   (L "tip", L "Travel Tips")].

(** The class [[a-zA-Z\s,]] *)
Definition city_char (c : ascii) : bool :=
  islower c || isupper c || isspace c || Ascii.eqb c ","%char.

(** [r"(?:in|of)\s+([a-zA-Z\s,]+)$"] *)
Definition city_re : regex :=
  Seq (Alt (Lit (L "in")) (Lit (L "of")))
    (Seq (Plus isspace) (Seq (Grp (Plus city_char)) EndS)).

(** [match.group(1)], when the search has found a match *)
Definition group1 (m : option (nat * mstate)) : option str :=
  match m with
  | Some (_, st) => m_group st
  | None => None
  end.

Definition detect_city (user_input : str) : str :=
  match group1 (re_search city_re (lower user_input)) with
  | Some g => title (strip g)
  | None => title user_input
  end.

(** The loop [for key in fields], with its [break]. *)
Fixpoint first_field (fs : list (str * str)) (lower_input : str)
    : option str :=
  match fs with
  | [] => None
  | (key, field) :: fs' =>
      if contains key lower_input then Some field
      else first_field fs' lower_input
  end.

Definition detect_field (user_input : str) : option str :=
  first_field fields (lower user_input).

(** Truth value of a string, or of [None]. *)
Definition truthy (o : option str) : bool :=
  match o with
  | Some (_ :: _) => true
  | _ => false
  end.

Definition nonempty (d : dict) : bool :=
  match d with [] => false | _ => true end.

Definition opt_eqb (o : option str) (s : str) : bool :=
  match o with Some x => str_eqb x s | None => false end.

(** [st.session_state]: the message history, which is only displayed, is
    left out. *)
Record session : Type := Session {
  last_city : option str;
  parsed_info : dict
}.

Definition initial_session : session := Session None [].

(** The two fixed replies hold characters above 127; they are written with
    the bytes of their UTF-8 encoding. *)
Definition greeting_reply : str :=
  L "👋 Hello there! Please enter a destination name to get travel information.".

Definition farewell_reply : str :=
  L "😊 Thank you for chatting with me! Have a great journey ahead! ✈️".

Section Turn.
(** The provider's own state: its cache, the clock, the network. *)
Variable World : Type.
Variable get_destination_info : str -> World -> str * World.
Variable detect_language : str -> str.

Definition current_info_is_valid (ss : session) (city : str) : bool :=
  opt_eqb (last_city ss) city && nonempty (parsed_info ss).

(** Lines 236 to 251: the record of the turn, the session and the
    provider's state after it. *)
Definition resolve_data (ss : session) (w : World) (city : str)
    (found_field : option str) : dict * session * World :=
  if negb (current_info_is_valid ss city) || negb (truthy found_field) then
    let (raw_info, w') := get_destination_info city w in
    let parsed_data := parse_raw_info raw_info in
    (parsed_data, Session (Some city) parsed_data, w')
  else
    (parsed_info ss, ss, w).

(** Lines 254 to 268 *)
Definition render (user_input city : str) (found_field : option str)
    (parsed_data : dict) : str :=
  match parsed_data with
  | [] =>
      if negb (str_eqb (detect_language user_input) (L "en")) then
        L "Sorry, I can only respond in English. Please type in English."
      else
        L "Sorry, I couldn't find data for '" ++ city
          ++ L "'. Make sure the city name is spelled correctly."
  | _ =>
      match found_field with
      | Some (c :: f) => extract_field parsed_data (c :: f)
      | _ => format_info_for_chat parsed_data
      end
  end.

(** The [else] branch of the turn, lines 203 to 268. *)
Definition answer (user_input : str) (ss : session) (w : World)
    : str * session * World :=
  let found_field := detect_field user_input in
  let city := detect_city user_input in
  let '(parsed_data, ss', w') := resolve_data ss w city found_field in
  (render user_input city found_field parsed_data, ss', w').

(** The body of [if prompt:], lines 190 to 268: the reply, the session
    and the provider's state after the turn. *)
Definition respond (prompt : str) (ss : session) (w : World)
    : str * session * World :=
  let user_input := strip prompt in
  let lower_input := lower user_input in
  if existsb (fun word => contains word lower_input) greetings then
    (greeting_reply, ss, w)
  else if existsb (fun word => contains word lower_input) farewells then
    (farewell_reply, ss, w)
  else answer user_input ss w.
End Turn.


(** * Notions used in the statements *)

(** [needle in hay] holds exactly when [needle] is a factor of [hay]. *)
Definition substring (needle hay : str) : Prop :=
  exists pre post, hay = pre ++ needle ++ post.

(** Some factor of [item] is [keyword] up to the case of its letters. *)
Definition contains_ci (keyword item : str) : Prop :=
  exists pre mid post, item = pre ++ mid ++ post /\ lower mid = keyword.

(** Four digits in a row with no letter, digit or underscore next to them
    on either side. *)
Definition standalone_year (item : str) : Prop :=
  exists pre d1 d2 d3 d4 post,
    item = pre ++ [d1; d2; d3; d4] ++ post /\
    forallb isdigit [d1; d2; d3; d4] = true /\
    isword_opt (last_char pre None) = false /\
    isword_opt (hd_error post) = false.

(** The items of the loop of [clean_places_to_visit], and its test. *)
Definition keep (item : str) : bool := negb (skipped item).

Definition items_of (raw : str) : list str := map strip (split ","%char raw).

(** The text [s] is "in" or "of", then whitespace, then [words], which are
    letters, whitespace and commas and run to the end of [s]. *)
Definition city_phrase (s words : str) : Prop :=
  exists kw ws,
    s = kw ++ ws ++ words /\
    (kw = L "in" \/ kw = L "of") /\
    ws <> [] /\ forallb isspace ws = true /\
    words <> [] /\ forallb city_char words = true.

(** The part of [city_re] after the preposition. *)
Definition city_tail : regex :=
  Seq (Plus isspace) (Seq (Grp (Plus city_char)) EndS).

(** The lower-cased utterance [li] ends, after [pre], with such a phrase. *)
Definition phrase_at (li pre words : str) : Prop :=
  exists post, li = pre ++ post /\ city_phrase post words.

(** The phrase the search reports is the one that starts first. *)
Definition first_phrase (li pre words : str) : Prop :=
  phrase_at li pre words /\
  (forall pre' words', phrase_at li pre' words' -> length pre <= length pre').

(** *** The walk of the record parser, as the specification words it *)

Definition is_delimiter (part : str) : bool := mem part delimiters.

Definition blank (part : str) : bool :=
  match strip part with [] => true | _ :: _ => false end.

(** The catalog name of a delimiter: the delimiter without its colon. *)
Definition key_of (part : str) : str := removelast part.

(** A piece that equals a known delimiter sets the current key; a piece
    that is non-delimiter text, when a current key is set, becomes that
    key's value (stored trimmed) and clears the current key; blank pieces
    are skipped without clearing state. *)
Fixpoint spec_fill (parts : list str) (current_key : option str)
    (record : dict) : dict :=
  match parts with
  | [] => record
  | part :: parts' =>
      if blank part then spec_fill parts' current_key record
      else if is_delimiter part then
        spec_fill parts' (Some (key_of part)) record
      else
        match current_key with
        | Some key => spec_fill parts' None (dict_set record key (strip part))
        | None => spec_fill parts' None record
        end
  end.

Definition spec_parse (blob : str) : dict :=
  spec_fill (re_split pattern blob) None [].

(** The number N of delimiter occurrences among the pieces. *)
Definition count_delims (parts : list str) : nat :=
  length (filter is_delimiter parts).

(** Is the first piece that is not blank a text? *)
Fixpoint next_is_text (parts : list str) : bool :=
  match parts with
  | [] => false
  | part :: parts' =>
      if blank part then next_is_text parts' else negb (is_delimiter part)
  end.

(** The number of delimiter occurrences with no value text: those that
    another delimiter, or the end, follows. *)
Fixpoint valueless (parts : list str) : nat :=
  match parts with
  | [] => 0
  | part :: parts' =>
      (if is_delimiter part && negb (next_is_text parts') then 1 else 0)
      + valueless parts'
  end.

(** The keys of the delimiter occurrences that have a value text, in the
    order of the blob. *)
Fixpoint valued_keys (parts : list str) (current_key : option str)
    : list str :=
  match parts with
  | [] => []
  | part :: parts' =>
      if blank part then valued_keys parts' current_key
      else if is_delimiter part then valued_keys parts' (Some (key_of part))
      else
        match current_key with
        | Some key => key :: valued_keys parts' None
        | None => valued_keys parts' None
        end
  end.

Fixpoint distinct (l : list str) : bool :=
  match l with
  | [] => true
  | x :: xs => negb (mem x xs) && distinct xs
  end.

(** No text piece, that is no piece other than a delimiter, ends with a
    colon. *)
Definition no_colon_text (parts : list str) : bool :=
  forallb (fun part => is_delimiter part || negb (endswith_char ":" part))
    parts.

(** *** Collaborators of the examples *)

(** The provider's answer of the end-to-end example. *)
Definition delhi_blob : str :=
  L "Destination:Delhi Country:India Standard Time / Timezone:IST Currency:INR (Indian Rupee)".

(** A provider that logs the cities it is asked for. *)
Definition logging_provider (blob : str) (city : str) (log : list str)
    : str * list str :=
  (blob, log ++ [city]).

(** * The rest of the program *)

(** ** Several turns of [app.py] *)

Section Turns.
Variable World : Type.
Variable get_destination_info : str -> World -> str * World.
Variable detect_language : str -> str.

(** One rerun of the script: the body of [if prompt:] runs when a prompt
    that is not empty was submitted. *)
Definition turn (prompt : str) (ss : session) (w : World)
    : option str * session * World :=
  match prompt with
  | [] => (None, ss, w)
  | _ =>
      let '(bot_reply, ss', w') :=
        respond get_destination_info detect_language prompt ss w in
      (Some bot_reply, ss', w')
  end.

(** The replies, the session and the provider's state after the prompts. *)
Fixpoint run (prompts : list str) (ss : session) (w : World)
    : list (option str) * session * World :=
  match prompts with
  | [] => ([], ss, w)
  | prompt :: prompts' =>
      let '(r, ss', w') := turn prompt ss w in
      let '(rs, ss'', w'') := run prompts' ss' w' in
      (r :: rs, ss'', w'')
  end.

(** The cached record is the parsed reply of the provider for the cached
    city, or nothing is cached. *)
Definition coherent (ss : session) : Prop :=
  (last_city ss = None /\ parsed_info ss = []) \/
  exists city w0,
    last_city ss = Some city /\
    parsed_info ss = parse_raw_info (fst (get_destination_info city w0)).
End Turns.

(** A provider whose reply depends on the city only. *)
Definition stateless (World : Type) (reply_for : str -> str) (city : str)
    (w : World) : str * World :=
  (reply_for city, w).

(** ** [chatbot_logic.py]: the texts of [get_destination_info] *)


(** [", ".join(attractions) if attractions else
    "No attraction data available."] *)
Definition attractions_str (attractions : list str) : str :=
  match attractions with
  | [] => L "No attraction data available."
  | _ :: _ => join (L ", ") attractions
  end.

(** The values that line 129 to 139 write into the reply, each as the text
    that the f-string puts for it. *)
Record reply_values : Type := ReplyValues {
  v_name : str;
  v_country_name : str;
  v_lat : str;
  v_lon : str;
  v_timezone : str;
  v_currency_code : str;
  v_currency_name : str;
  v_temp : str;
  v_weather_desc : str;
  v_attractions_str : str;
  v_summary : str
}.

Definition travel_tips : str :=
  L "Check visa requirements, local covid/travel rules, and local transport options.".

(** The reply, line 129 to 139. The degree sign is written with the bytes
    of its UTF-8 encoding. *)
Definition build_reply (v : reply_values) : str :=
  L "Destination: " ++ v_name v ++ nl ++
  L "Country: " ++ v_country_name v ++ nl ++
  L "Coordinates: " ++ v_lat v ++ L ", " ++ v_lon v ++ nl ++
  L "Standard Time / Timezone: " ++ v_timezone v ++ nl ++
  L "Currency: " ++ v_currency_code v ++ L " (" ++ v_currency_name v
    ++ L ")" ++ nl ++
  L "Current Weather: " ++ v_temp v ++ L "°C, " ++ v_weather_desc v ++ nl ++
  L "Places to Visit: " ++ v_attractions_str v ++ nl ++
  L "Description (short): " ++ v_summary v ++ nl ++
  L "Travel Tips: " ++ travel_tips ++ nl.

(** ** [chatbot_logic.py]: [_wiki_summary_and_attractions] *)

(** The loop [for t in res], which appends the titles that are new and are
    not the title of the page. *)
Fixpoint add_titles (res : list str) (page_title : str)
    (attractions : list str) : list str :=
  match res with
  | [] => attractions
  | t :: res' =>
      add_titles res' page_title
        (if negb (mem t attractions) && negb (str_eqb t page_title)
         then attractions ++ [t] else attractions)
  end.

Section Wiki.
Variable World : Type.
(** [wikipedia.search(query, results=n)] and [wikipedia.summary(title,
    sentences=3, auto_suggest=False)]; [None] stands for an exception. *)
Variable search : str -> nat -> World -> option (list str) * World.
Variable summary : str -> World -> option str * World.

(** The loop over the three queries, with its [break]. An exception of a
    search leaves the loop for the handler. *)
Fixpoint collect (queries : list str) (max_attractions : nat)
    (page_title : str) (attractions : list str) (w : World)
    : option (list str) * World :=
  match queries with
  | [] => (Some attractions, w)
  | q :: queries' =>
      match search q max_attractions w with
      | (None, w') => (None, w')
      | (Some res, w') =>
          let attractions' := add_titles res page_title attractions in
          if max_attractions <=? length attractions'
          then (Some attractions', w')
          else collect queries' max_attractions page_title attractions' w'
      end
  end.

Definition attraction_queries (city_name : str) : list str :=
  [city_name ++ L " attractions";
   L "Things to do in " ++ city_name;
   L "Tourist attractions in " ++ city_name].

(** The summary and the attractions; [(None, [])] when nothing is found
    and when a call raised. *)
Definition wiki_summary_and_attractions (city_name : str)
    (max_attractions : nat) (w : World) : option str * list str * World :=
  match search city_name 5 w with
  | (None, w1) => (None, [], w1)
  | (Some [], w1) => (None, [], w1)
  | (Some (page_title :: _), w1) =>
      match summary page_title w1 with
      | (None, w2) => (None, [], w2)
      | (Some text, w2) =>
          match collect (attraction_queries city_name) max_attractions
                  page_title [] w2 with
          | (None, w3) => (None, [], w3)
          | (Some attractions, w3) =>
              (Some text, firstn max_attractions attractions, w3)
          end
      end
  end.
End Wiki.

(** ** [main.py] *)

(** [s.split()]: the words between runs of whitespace. [acc] holds the
    current word, reversed. *)
Fixpoint words_from (acc : str) (s : str) : list str :=
  match s with
  | [] => match acc with [] => [] | _ :: _ => [rev acc] end
  | c :: s' =>
      if isspace c then
        match acc with
        | [] => words_from [] s'
        | _ :: _ => rev acc :: words_from [] s'
        end
      else words_from (c :: acc) s'
  end.

Definition split_ws (s : str) : list str := words_from [] s.

(** What one pass of the loop prints, and whether the loop goes on. *)
Inductive cli_step : Type :=
| Break (printed : str)
| Continue (printed : str).

Section Cli.
Variable World : Type.
Variable get_destination_info : str -> World -> str * World.
Variable detect_language : str -> str.

(** The body of [while True], for the line that [input] returns. *)
Definition cli_turn (line : str) (w : World) : cli_step * World :=
  let user_input := strip line in
  if mem (lower user_input) [L "bye"; L "exit"; L "quit"] then
    (Break (L "Bot: Goodbye! Safe travels!"), w)
  else if (1 <? length (split_ws user_input))
          && negb (str_eqb (detect_language user_input) (L "en")) then
    (Continue
       (L "Bot: Sorry, I can only respond in English. Please type in English."),
     w)
  else if mem (lower user_input) [L "hi"; L "hello"; L "hey"] then
    (Continue (L "Bot: How can I help you? Please tell me a destination name."),
     w)
  else
    let city := title user_input in
    let (bot_reply, w') := get_destination_info city w in
    (Continue (L "Bot: " ++ bot_reply), w').

(** The loop on the lines typed; the flag tells whether it ended by a
    [break], and not because the lines ran out. *)
Fixpoint cli_loop (lines : list str) (w : World)
    : list str * bool * World :=
  match lines with
  | [] => ([], false, w)
  | line :: lines' =>
      match cli_turn line w with
      | (Break printed, w') => ([printed], true, w')
      | (Continue printed, w') =>
          let '(rest, ended, w'') := cli_loop lines' w' in
          (printed :: rest, ended, w'')
      end
  end.

Definition chatbot (lines : list str) (w : World) : list str * bool * World :=
  let '(printed, ended, w') := cli_loop lines w in
  (L "Bot: Hello! How can I help you today?" :: printed, ended, w').
End Cli.

(** ** The chat turn with a provider that may raise *)

Section TurnRaising.
Variable World : Type.
(** [get_destination_info] with its exceptions: the first component is
    [None] when the call raised, as an unguarded request of
    [chatbot_logic.py] can. The turn does not catch it. *)
Variable get_destination_info : str -> World -> option str * World.
Variable detect_language : str -> str.

(** Lines 236 to 251; [None] when the spinner block raised, before the
    session is assigned. *)
Definition resolve_data_raising (ss : session) (w : World) (city : str)
    (found_field : option str) : option (dict * session) * World :=
  if negb (current_info_is_valid ss city) || negb (truthy found_field) then
    match get_destination_info city w with
    | (Some raw_info, w') =>
        let parsed_data := parse_raw_info raw_info in
        (Some (parsed_data, Session (Some city) parsed_data), w')
    | (None, w') => (None, w')
    end
  else
    (Some (parsed_info ss, ss), w).

(** The body of [if prompt:]; the reply is [None] when the exception of
    the provider ended the run of the script. *)
Definition respond_raising (prompt : str) (ss : session) (w : World)
    : option str * session * World :=
  let user_input := strip prompt in
  let lower_input := lower user_input in
  if existsb (fun word => contains word lower_input) greetings then
    (Some greeting_reply, ss, w)
  else if existsb (fun word => contains word lower_input) farewells then
    (Some farewell_reply, ss, w)
  else
    let found_field := detect_field user_input in
    let city := detect_city user_input in
    match resolve_data_raising ss w city found_field with
    | (Some (parsed_data, ss'), w') =>
        (Some (render detect_language user_input city found_field
                 parsed_data),
         ss', w')
    | (None, w') => (None, ss, w')
    end.
End TurnRaising.

(** A provider that never raises, as one that may. *)
Definition returning (World : Type)
    (get_destination_info : str -> World -> str * World) (city : str)
    (w : World) : option str * World :=
  let (raw_info, w') := get_destination_info city w in (Some raw_info, w').

(** The characters below 128. *)
Definition is_ascii (c : ascii) : bool := code c <? 128.

Definition ascii_text (s : str) : Prop := forallb is_ascii s = true.

(** ** Notions used in the further statements *)

(** The text of lines ["Key: value"], each ended by a newline. *)
Definition render_lines (entries : list (str * str)) : str :=
  concat (map (fun kv => fst kv ++ L ": " ++ snd kv ++ nl) entries).

(** No catalog name followed by a colon occurs in [v]. *)
Definition delimiter_free (v : str) : Prop :=
  forall key, In key keys -> ~ substring (key ++ L ":") v.

(** The keys and values of [build_reply]. *)
Definition reply_entries (v : reply_values) : list (str * str) :=
  [(L "Destination", v_name v);
   (L "Country", v_country_name v);
   (L "Coordinates", v_lat v ++ L ", " ++ v_lon v);
   (L "Standard Time / Timezone", v_timezone v);
   (L "Currency",
    v_currency_code v ++ L " (" ++ v_currency_name v ++ L ")");
   (L "Current Weather", v_temp v ++ L "°C, " ++ v_weather_desc v);
   (L "Places to Visit", v_attractions_str v);
   (L "Description (short)", v_summary v);
   (L "Travel Tips", travel_tips)].

(** What [extract_field] shows for a value. *)
Definition shown (field value : str) : str :=
  if str_eqb field places_key then clean_places_to_visit value else value.

(** The pieces of [re.split] are a text, then delimiter and text in
    turn. *)
Fixpoint alternating (text_next : bool) (parts : list str) : Prop :=
  match parts with
  | [] => text_next = false
  | part :: parts' =>
      if text_next then alternating false parts'
      else is_delimiter part = true /\ alternating true parts'
  end.

(** What holds of every entry of a parsed record. *)
Definition entry_ok (kv : str * str) : Prop :=
  In (fst kv) keys /\ snd kv <> [] /\ strip (snd kv) = snd kv.

(** The pieces of the text of [render_lines]. *)
Definition line_pieces (kv : str * str) : list str :=
  [fst kv ++ L ":"; " "%char :: snd kv ++ nl].

(** The assignments of the walk for the entries, in their order. *)
Definition assign_all (entries : list (str * str)) (record : dict) : dict :=
  fold_left (fun r kv => dict_set r (fst kv) (strip (snd kv))) entries record.

(** The entries with their values trimmed. *)
Definition trimmed (entries : list (str * str)) : dict :=
  map (fun kv => (fst kv, strip (snd kv))) entries.

(** What the parser needs of the lines: catalog names for keys, and values
    that are not blank and hold no delimiter. *)
Definition well_formed (entries : list (str * str)) : Prop :=
  forall key value,
    In (key, value) entries ->
    In key keys /\ delimiter_free value /\ strip value <> [].



(** * Properties *)

(** ** Strings *)

Ltac ascii_cases c :=
  destruct c as [[] [] [] [] [] [] [] []]; vm_compute; try reflexivity;
  try discriminate; auto.

Lemma str_eqb_eq (a b : str) : str_eqb a b = true <-> a = b.
Proof.
  unfold str_eqb. destruct (list_eq_dec ascii_dec a b); split; intros;
    congruence.
Qed.

Lemma str_eqb_refl (a : str) : str_eqb a a = true.
Proof. now apply str_eqb_eq. Qed.

Lemma str_eqb_neq (a b : str) : str_eqb a b = false <-> a <> b.
Proof.
  unfold str_eqb. destruct (list_eq_dec ascii_dec a b); split; intros;
    congruence.
Qed.

Lemma strip_prefix_inv (p s r : str) : strip_prefix p s = Some r -> s = p ++ r.
Proof.
  revert s. induction p as [|a p IH]; intros [|c s]; simpl; try congruence.
  destruct (Ascii.eqb a c) eqn:E; [|discriminate].
  apply Ascii.eqb_eq in E. subst c. intros H. now rewrite (IH _ H).
Qed.

Lemma strip_prefix_app (p r : str) : strip_prefix p (p ++ r) = Some r.
Proof.
  induction p as [|a p IH]; simpl; [reflexivity|].
  now rewrite Ascii.eqb_refl.
Qed.

Lemma startswith_iff (p s : str) :
  startswith p s = true <-> exists r, s = p ++ r.
Proof.
  unfold startswith. split.
  - destruct (strip_prefix p s) as [r|] eqn:E; [|discriminate].
    intros _. exists r. now apply strip_prefix_inv.
  - intros [r ->]. now rewrite strip_prefix_app.
Qed.

Lemma contains_iff (needle hay : str) :
  contains needle hay = true <-> substring needle hay.
Proof.
  unfold substring. induction hay as [|c hay IH].
  - simpl. rewrite orb_false_r, startswith_iff. split.
    + intros [r H]. now exists [], r.
    + intros (pre & post & H). destruct pre; [now exists post|].
      discriminate.
  - cbn [contains]. rewrite orb_true_iff, startswith_iff, IH. split.
    + intros [[r H]|(pre & post & H)].
      * now exists [], r.
      * exists (c :: pre), post. simpl. now rewrite H.
    + intros (pre & post & H). destruct pre as [|a pre].
      * left. now exists post.
      * right. injection H as _ H. now exists pre, post.
Qed.

Lemma contains_false_iff (needle hay : str) :
  contains needle hay = false <-> ~ substring needle hay.
Proof.
  rewrite <- contains_iff. destruct (contains needle hay); split; intros;
    congruence.
Qed.

Lemma split_no_sep (sep : ascii) (s : str) :
  ~ In sep s -> split sep s = [s].
Proof.
  induction s as [|c s IH]; simpl; intros H; [reflexivity|].
  destruct (Ascii.eqb c sep) eqn:E.
  - apply Ascii.eqb_eq in E. tauto.
  - rewrite IH; tauto.
Qed.

Lemma split_app_sep (sep : ascii) (x s : str) :
  ~ In sep x -> split sep (x ++ sep :: s) = x :: split sep s.
Proof.
  induction x as [|c x IH]; simpl; intros H.
  - now rewrite Ascii.eqb_refl.
  - destruct (Ascii.eqb c sep) eqn:E.
    + apply Ascii.eqb_eq in E. tauto.
    + rewrite IH; tauto.
Qed.

Lemma split_items_no_sep (sep : ascii) (s : str) :
  Forall (fun x => ~ In sep x) (split sep s).
Proof.
  induction s as [|c s IH]; simpl.
  - constructor; [tauto|constructor].
  - destruct (Ascii.eqb c sep) eqn:E.
    + constructor; [tauto|assumption].
    + assert (Hc : c <> sep) by (intros ->; now rewrite Ascii.eqb_refl in E).
      destruct (split sep s) as [|x xs].
      * constructor; [|constructor]. simpl. intuition congruence.
      * inversion IH; subst. constructor; [|assumption].
        simpl. intuition congruence.
Qed.

Lemma lstrip_incl (c : ascii) (s : str) : In c (lstrip s) -> In c s.
Proof.
  induction s as [|a s IH]; simpl; [tauto|].
  destruct (isspace a); simpl; tauto.
Qed.

Lemma strip_incl (c : ascii) (s : str) : In c (strip s) -> In c s.
Proof.
  unfold strip, rstrip. intros H.
  apply lstrip_incl. apply in_rev. apply lstrip_incl.
  now apply in_rev in H.
Qed.

Lemma lstrip_idem (s : str) : lstrip (lstrip s) = lstrip s.
Proof.
  induction s as [|a s IH]; simpl; [reflexivity|].
  destruct (isspace a) eqn:E; [assumption|].
  simpl. now rewrite E.
Qed.

Lemma lstrip_head (s : str) :
  match lstrip s with
  | c :: _ => isspace c = false
  | [] => True
  end.
Proof.
  induction s as [|a s IH]; simpl; [exact I|].
  destruct (isspace a) eqn:E; [assumption|exact E].
Qed.

Lemma lstrip_all_space (s : str) : forallb isspace s = true -> lstrip s = [].
Proof.
  induction s as [|a s IH]; simpl; [reflexivity|].
  destruct (isspace a); simpl; [assumption|discriminate].
Qed.

Lemma lstrip_snoc (u : str) (c : ascii) :
  isspace c = false -> lstrip (u ++ [c]) = lstrip u ++ [c].
Proof.
  intros H. induction u as [|a u IH]; simpl.
  - now rewrite H.
  - destruct (isspace a); [assumption|reflexivity].
Qed.

Lemma rstrip_cons (c : ascii) (t : str) :
  isspace c = false -> rstrip (c :: t) = c :: rstrip t.
Proof.
  intros H. unfold rstrip. simpl.
  now rewrite lstrip_snoc, rev_app_distr.
Qed.

Lemma rstrip_idem (s : str) : rstrip (rstrip s) = rstrip s.
Proof. unfold rstrip. now rewrite rev_involutive, lstrip_idem. Qed.

Lemma strip_idem (s : str) : strip (strip s) = strip s.
Proof.
  unfold strip. pose proof (lstrip_head s) as H.
  destruct (lstrip s) as [|c t] eqn:E; [reflexivity|].
  rewrite rstrip_cons by assumption. simpl. rewrite H.
  now rewrite rstrip_cons, rstrip_idem.
Qed.

Lemma strip_space_cons (c : ascii) (s : str) :
  isspace c = true -> strip (c :: s) = strip s.
Proof. intros H. unfold strip. simpl. now rewrite H. Qed.

Lemma strip_all_space (s : str) : forallb isspace s = true -> strip s = [].
Proof. intros H. unfold strip. now rewrite lstrip_all_space. Qed.

(** ** The content filter *)

Lemma clean_unfold (raw : str) :
  raw <> [] ->
  clean_places_to_visit raw =
    match filter keep (items_of raw) with
    | [] => no_sites
    | kept => join (L ", ") kept
    end.
Proof.
  destruct raw as [|c raw]; [congruence|]. intros _.
  unfold clean_places_to_visit.
  change (filter (fun item => negb (skipped item))
            (map strip (split ","%char (c :: raw))))
    with (filter keep (items_of (c :: raw))).
  now destruct (filter keep (items_of (c :: raw))).
Qed.

Lemma split_join (x : str) (xs : list str) :
  Forall (fun y => ~ In ","%char y) (x :: xs) ->
  split ","%char (join (L ", ") (x :: xs)) = x :: map (cons " "%char) xs.
Proof.
  revert x. induction xs as [|y ys IH]; intros x H; inversion H; subst.
  - simpl. now apply split_no_sep.
  - change (join (L ", ") (x :: y :: ys))
      with (x ++ ","%char :: " "%char :: join (L ", ") (y :: ys)).
    rewrite split_app_sep by assumption.
    f_equal.
    change (split ","%char (" "%char :: join (L ", ") (y :: ys)))
      with (match split ","%char (join (L ", ") (y :: ys)) with
            | z :: zs => (" "%char :: z) :: zs
            | [] => [[" "%char]]
            end).
    now rewrite IH.
Qed.

Lemma items_of_join (kept : list str) :
  kept <> [] ->
  Forall (fun y => ~ In ","%char y) kept ->
  Forall (fun y => strip y = y) kept ->
  items_of (join (L ", ") kept) = kept.
Proof.
  intros Hne Hc Hs. destruct kept as [|x xs]; [congruence|].
  unfold items_of. rewrite split_join by assumption.
  inversion Hs as [|? ? Hx Hxs]; subst. simpl. rewrite Hx. f_equal.
  clear -Hxs. induction Hxs as [|y ys Hy _ IH]; simpl; [reflexivity|].
  rewrite strip_space_cons by reflexivity. now rewrite Hy, IH.
Qed.

Lemma filter_keep_idem (l : list str) :
  filter keep (filter keep l) = filter keep l.
Proof.
  induction l as [|x l IH]; simpl; [reflexivity|].
  destruct (keep x) eqn:E; simpl; [rewrite E|]; now rewrite ?IH.
Qed.

Lemma kept_items_wf (raw : str) :
  Forall (fun y => ~ In ","%char y) (filter keep (items_of raw)) /\
  Forall (fun y => strip y = y) (filter keep (items_of raw)).
Proof.
  unfold items_of.
  pose proof (split_items_no_sep ","%char raw) as H.
  induction H as [|x xs Hx _ IH]; simpl; [split; constructor|].
  destruct IH as [IH1 IH2].
  destruct (keep (strip x)); [|now split].
  split; constructor; try assumption.
  - intros Hin. apply Hx. now apply strip_incl.
  - apply strip_idem.
Qed.

Lemma all_space_no_comma (s : str) :
  forallb isspace s = true -> ~ In ","%char s.
Proof.
  induction s as [|c s IH]; simpl; [tauto|].
  rewrite andb_true_iff. intros [Hc Hs] [->|H]; [discriminate|tauto].
Qed.

Lemma clean_no_sites : clean_places_to_visit no_sites = no_sites.
Proof. vm_compute. reflexivity. Qed.

(** C10. A non-empty input of whitespace only passes the guard, is one item
    that trims to the empty string, which is kept: the result is the empty
    string, not the sentinel. *)
Theorem clean_whitespace_only (raw : str) :
  raw <> [] -> forallb isspace raw = true -> clean_places_to_visit raw = [].
Proof.
  intros Hne Hsp. rewrite clean_unfold by assumption.
  unfold items_of. rewrite split_no_sep by now apply all_space_no_comma.
  simpl. now rewrite strip_all_space.
Qed.

Lemma clean_whitespace_only_witness :
  L " " <> [] /\ forallb isspace (L " ") = true /\
  clean_places_to_visit (L " ") = [] /\
  clean_places_to_visit (L " ") <> no_sites.
Proof.
  split; [discriminate|]. split; [reflexivity|]. split.
  - apply clean_whitespace_only; [discriminate|reflexivity].
  - rewrite clean_whitespace_only; [discriminate|discriminate|reflexivity].
Defined.

(** C3, as stated: the sentinel of the code is not the text
    "no items available". *)
Lemma clean_sentinel_counterexample :
  clean_places_to_visit (L "") <> L "no items available".
Proof. vm_compute. discriminate. Qed.

(** C3, amended. On the empty string, and on an input all of whose items
    are skipped by the loop, the result is the fixed text
    "No specific sites listed.". *)
Theorem clean_sentinel (raw : str) :
  raw = [] \/
  Forall (fun item => skipped (strip item) = true) (split ","%char raw) ->
  clean_places_to_visit raw = L "No specific sites listed.".
Proof.
  intros [->|H]; [reflexivity|].
  destruct raw as [|c raw]; [reflexivity|].
  rewrite clean_unfold by discriminate. unfold items_of.
  induction H as [|x xs Hx _ IH]; simpl; [reflexivity|].
  unfold keep at 1. now rewrite Hx.
Qed.

Lemma clean_sentinel_witness :
  clean_places_to_visit (L "2024 Olympics, Film Festival ,the race")
  = L "No specific sites listed.".
Proof.
  apply clean_sentinel. right. vm_compute.
  repeat (constructor; [reflexivity|]). constructor.
Defined.

(** C5, as stated: the filter is not idempotent on a blank input. *)
Lemma clean_idempotent_counterexample :
  clean_places_to_visit (clean_places_to_visit (L " "))
  <> clean_places_to_visit (L " ").
Proof. vm_compute. discriminate. Qed.

(** C5, amended. Filtering is idempotent on every input whose filtered text
    is not empty. *)
Theorem clean_idempotent (raw : str) :
  clean_places_to_visit raw <> [] ->
  clean_places_to_visit (clean_places_to_visit raw)
  = clean_places_to_visit raw.
Proof.
  destruct raw as [|c raw]; [intros _; apply clean_no_sites|].
  set (s := c :: raw). assert (Hs : s <> []) by discriminate.
  rewrite (clean_unfold Hs).
  destruct (kept_items_wf s) as [Hc Hst].
  destruct (filter keep (items_of s)) as [|x xs] eqn:E;
    [intros _; apply clean_no_sites|].
  intros Hout. rewrite (clean_unfold Hout).
  rewrite items_of_join by (assumption || discriminate).
  now rewrite <- E, filter_keep_idem, E.
Qed.

Lemma clean_idempotent_witness :
  clean_places_to_visit (L "Paris,2024 Olympics, Eiffel Tower ") <> [] /\
  clean_places_to_visit
    (clean_places_to_visit (L "Paris,2024 Olympics, Eiffel Tower "))
  = clean_places_to_visit (L "Paris,2024 Olympics, Eiffel Tower ").
Proof.
  split; [vm_compute; discriminate|].
  apply clean_idempotent. vm_compute. discriminate.
Defined.

(** ** Searching *)

Lemma last_char_cons (c : ascii) (l : str) (d : option ascii) :
  last_char (c :: l) d = last_char l (Some c).
Proof.
  unfold last_char. simpl. now destruct (rev l).
Qed.

(** [re.search] fails exactly when no position has a match. *)
Lemma search_from_None (r : regex) (s : str) :
  forall prev pos,
  search_from r prev s pos = None <->
  (forall pre post, s = pre ++ post ->
     match_here r (last_char pre prev) post = None).
Proof.
  induction s as [|c s IH]; intros prev pos; simpl.
  - destruct (match_here r prev []) eqn:E; split; try discriminate.
    + intros H. specialize (H [] [] eq_refl). cbn in H. congruence.
    + intros _ pre post H. symmetry in H. apply app_eq_nil in H.
      destruct H as [-> ->]. exact E.
    + reflexivity.
  - destruct (match_here r prev (c :: s)) eqn:E.
    + split; [discriminate|]. intros H.
      specialize (H [] (c :: s) eq_refl). cbn in H. congruence.
    + rewrite IH. split.
      * intros H [|a pre] post Hs.
        -- simpl in Hs. subst post. exact E.
        -- injection Hs as <- Hs. rewrite last_char_cons. now apply H.
      * intros H pre post Hs. rewrite <- (last_char_cons c pre prev).
        apply H. simpl. now rewrite Hs.
Qed.

(** A successful [re.search] reports the leftmost position with a match. *)
Lemma search_from_Some (r : regex) (s : str) :
  forall prev pos n st,
  search_from r prev s pos = Some (n, st) <->
  exists pre post,
    s = pre ++ post /\ n = pos + length pre /\
    match_here r (last_char pre prev) post = Some st /\
    (forall pre' post', s = pre' ++ post' -> length pre' < length pre ->
       match_here r (last_char pre' prev) post' = None).
Proof.
  induction s as [|c s IH]; intros prev pos n st; simpl.
  - destruct (match_here r prev []) eqn:E; split.
    + intros [= <- <-]. exists [], []. cbn. repeat split; auto.
      intros ? ? _ H. inversion H.
    + intros (pre & post & Hs & -> & Hm & _).
      symmetry in Hs. apply app_eq_nil in Hs. destruct Hs as [-> ->].
      cbn in Hm. rewrite Nat.add_0_r. congruence.
    + discriminate.
    + intros (pre & post & Hs & -> & Hm & _).
      symmetry in Hs. apply app_eq_nil in Hs. destruct Hs as [-> ->].
      cbn in Hm. congruence.
  - destruct (match_here r prev (c :: s)) eqn:E.
    + split.
      * intros [= <- <-]. exists [], (c :: s). cbn. repeat split; auto.
        intros ? ? _ H. inversion H.
      * intros (pre & post & Hs & -> & Hm & Hleft).
        destruct pre as [|a pre].
        -- simpl in Hs. subst post. cbn in Hm. rewrite Nat.add_0_r.
           congruence.
        -- specialize (Hleft [] (c :: s) eq_refl). cbn in Hleft.
           rewrite Hleft in E by lia. discriminate.
    + rewrite IH. split.
      * intros (pre & post & Hs & -> & Hm & Hleft).
        exists (c :: pre), post. rewrite last_char_cons. simpl.
        repeat split; [now rewrite Hs|lia|assumption|].
        intros [|a pre'] post' Hs' Hlen.
        -- simpl in Hs'. subst post'. exact E.
        -- injection Hs' as <- Hs'. rewrite last_char_cons.
           apply Hleft; [assumption|simpl in Hlen; lia].
      * intros (pre & post & Hs & -> & Hm & Hleft).
        destruct pre as [|a pre].
        -- simpl in Hs. subst post. cbn in Hm. congruence.
        -- injection Hs as <- Hs. rewrite last_char_cons in Hm.
           exists pre, post. repeat split; [assumption|simpl; lia|assumption|].
           intros pre' post' Hs' Hlen. rewrite <- (last_char_cons c pre' prev).
           apply Hleft; [simpl; now rewrite Hs'|simpl; lia].
Qed.

Lemma digit_is_word (c : ascii) : isdigit c = true -> isword c = true.
Proof. ascii_cases c. Qed.

(** [\b\d{4}\b] at one position *)
Lemma year_here (prev : option ascii) (s : str) :
  match_here year_re prev s <> None <->
  exists d1 d2 d3 d4 post,
    s = [d1; d2; d3; d4] ++ post /\
    forallb isdigit [d1; d2; d3; d4] = true /\
    isword_opt prev = false /\
    isword_opt (hd_error post) = false.
Proof.
  unfold match_here, year_re. split.
  - cbn -[isword_opt].
    destruct s as [|d1 [|d2 [|d3 [|d4 post]]]]; cbn -[isword_opt];
      try (intros H; exfalso; apply H;
           repeat match goal with
                  | |- context [if ?b then _ else _] => destruct b
                  end; reflexivity).
    destruct (isdigit d1) eqn:E1; [|destruct (xorb _ _); congruence].
    change (isword_opt (Some d1)) with (isword d1).
    rewrite (digit_is_word _ E1).
    destruct (isword_opt prev) eqn:Ep; cbn -[isword_opt]; [congruence|].
    destruct (isdigit d2) eqn:E2; [|congruence].
    destruct (isdigit d3) eqn:E3; [|congruence].
    destruct (isdigit d4) eqn:E4; [|congruence].
    change (isword_opt (Some d4)) with (isword d4).
    rewrite (digit_is_word _ E4).
    destruct (isword_opt (hd_error post)) eqn:Eq; cbn; [congruence|].
    intros _. exists d1, d2, d3, d4, post. rewrite E1, E2, E3, E4. auto.
  - intros (d1 & d2 & d3 & d4 & post & -> & Hd & Hp & Hq).
    cbn in Hd. rewrite !andb_true_iff in Hd.
    destruct Hd as (E1 & E2 & E3 & E4 & _).
    cbn -[isword_opt]. rewrite Hp, E1, E2, E3, E4.
    change (isword_opt (Some d1)) with (isword d1).
    change (isword_opt (Some d4)) with (isword d4).
    rewrite (digit_is_word _ E1), (digit_is_word _ E4), Hq.
    cbn. discriminate.
Qed.

Lemma has_year_iff (item : str) :
  has_year item = true <-> standalone_year item.
Proof.
  unfold has_year, re_search, standalone_year. split.
  - destruct (search_from year_re None item 0) as [[n st]|] eqn:E;
      [intros _|discriminate].
    apply search_from_Some in E.
    destruct E as (pre & post & Hs & _ & Hm & _).
    assert (Hne : match_here year_re (last_char pre None) post <> None)
      by congruence.
    apply year_here in Hne.
    destruct Hne as (d1 & d2 & d3 & d4 & post' & -> & Hd & Hp & Hq).
    now exists pre, d1, d2, d3, d4, post'.
  - intros (pre & d1 & d2 & d3 & d4 & post & Hs & Hd & Hp & Hq).
    destruct (search_from year_re None item 0) eqn:E; [reflexivity|].
    exfalso. rewrite search_from_None in E.
    specialize (E pre ([d1; d2; d3; d4] ++ post) Hs).
    revert E. apply year_here. now exists d1, d2, d3, d4, post.
Qed.

Lemma contains_lower_iff (keyword item : str) :
  contains keyword (lower item) = true <-> contains_ci keyword item.
Proof.
  rewrite contains_iff. unfold substring, contains_ci, lower. split.
  - intros (pre & post & H).
    apply map_eq_app in H. destruct H as (pre' & rest & -> & Hpre & H).
    apply map_eq_app in H. destruct H as (mid & post' & -> & Hmid & Hpost).
    now exists pre', mid, post'.
  - intros (pre & mid & post & -> & <-).
    exists (map lower_char pre), (map lower_char post).
    now rewrite !map_app.
Qed.

Lemma has_keyword_iff (item : str) :
  has_keyword item = true <->
  exists keyword, In keyword keywords /\ contains_ci keyword item.
Proof.
  unfold has_keyword. rewrite existsb_exists.
  split; intros (k & Hin & H); exists k; split; try assumption;
    now apply contains_lower_iff.
Qed.

(** C8. The items are the comma-separated pieces, trimmed; an item is
    dropped exactly when it holds a standalone four-digit number or, up to
    case, one of the five keywords; the items kept are joined again with a
    comma and a space. *)
Theorem clean_drop_rule :
  (forall item,
     skipped item = true <->
     standalone_year item \/
     exists keyword,
       In keyword [L "election"; L "film"; L "movie"; L "race"; L "title"] /\
       contains_ci keyword item) /\
  (forall c raw,
     clean_places_to_visit (c :: raw) =
       match filter (fun item => negb (skipped item))
               (map strip (split ","%char (c :: raw))) with
       | [] => L "No specific sites listed."
       | kept => join (L ", ") kept
       end) /\
  clean_places_to_visit
    (L "Paris,2024 Olympics,Eiffel Tower,2023 Film Festival")
  = L "Paris, Eiffel Tower".
Proof.
  split; [|split].
  - intros item. unfold skipped.
    now rewrite orb_true_iff, has_year_iff, has_keyword_iff.
  - intros c raw. now rewrite clean_unfold.
  - vm_compute. reflexivity.
Qed.

(** ** The requested field *)

Lemma first_field_None (fs : list (str * str)) (li : str) :
  first_field fs li = None <->
  (forall alias field, In (alias, field) fs -> ~ substring alias li).
Proof.
  induction fs as [|[a f] fs IH]; simpl.
  - split; [intros _ ? ? []|reflexivity].
  - destruct (contains a li) eqn:E.
    + split; [discriminate|]. intros H. exfalso.
      apply (H a f); [now left|now apply contains_iff].
    + rewrite IH. apply contains_false_iff in E. split.
      * intros H alias field [[= <- <-]|Hin]; [assumption|eauto].
      * intros H alias field Hin. apply (H alias field). now right.
Qed.

Lemma first_field_Some (fs : list (str * str)) (li field : str) :
  first_field fs li = Some field <->
  exists before alias after,
    fs = before ++ (alias, field) :: after /\
    substring alias li /\
    (forall a f, In (a, f) before -> ~ substring a li).
Proof.
  induction fs as [|[a f] fs IH]; simpl.
  - split; [discriminate|].
    intros (before & alias & after & H & _). now destruct before.
  - destruct (contains a li) eqn:E.
    + apply contains_iff in E. split.
      * intros [= <-]. exists [], a, fs.
        split; [reflexivity|]. split; [assumption|]. intros ? ? [].
      * intros (before & alias & after & H & Hsub & Hno).
        destruct before as [|[a' f'] before].
        -- now injection H as _ ->.
        -- injection H as -> -> _. exfalso.
           apply (Hno a' f'); [now left|assumption].
    + apply contains_false_iff in E. rewrite IH. split.
      * intros (before & alias & after & -> & Hsub & Hno).
        exists ((a, f) :: before), alias, after. repeat split; auto.
        intros a' f' [[= <- <-]|Hin]; [assumption|eauto].
      * intros (before & alias & after & H & Hsub & Hno).
        destruct before as [|[a' f'] before].
        -- injection H as -> _ _. contradiction.
        -- injection H as _ _ ->. exists before, alias, after.
           repeat split; auto. intros a0 f0 Hin. apply (Hno a0 f0).
           now right.
Qed.

(** C7. The aliases are tried in the order of [fields]; the first one that
    is a factor of the lower-cased utterance gives the field, and no field
    is requested when none is. *)
Theorem detect_field_first_alias :
  (forall user_input,
     detect_field user_input = None <->
     (forall alias field, In (alias, field) fields ->
        ~ substring alias (lower user_input))) /\
  (forall user_input field,
     detect_field user_input = Some field <->
     exists before alias after,
       fields = before ++ (alias, field) :: after /\
       substring alias (lower user_input) /\
       (forall a f, In (a, f) before -> ~ substring a (lower user_input))) /\
  detect_field (L "currency of japan") = Some (L "Currency") /\
  detect_field (L "Tokyo") = None.
Proof.
  split; [|split; [|split]].
  - intros u. apply first_field_None.
  - intros u field. apply first_field_Some.
  - vm_compute. reflexivity.
  - vm_compute. reflexivity.
Qed.

(** ** The city *)

Lemma lstrip_app (u v : str) :
  lstrip (u ++ v) = if forallb isspace u then lstrip v else lstrip u ++ v.
Proof.
  induction u as [|c u IH]; simpl; [reflexivity|].
  destruct (isspace c); simpl; [assumption|reflexivity].
Qed.

Lemma forallb_rev (p : ascii -> bool) (s : str) :
  forallb p (rev s) = forallb p s.
Proof.
  induction s as [|c s IH]; simpl; [reflexivity|].
  rewrite forallb_app, IH. simpl. rewrite andb_true_r. apply andb_comm.
Qed.

Lemma rstrip_app_space (a b : str) :
  forallb isspace b = true -> rstrip (a ++ b) = rstrip a.
Proof.
  intros H. unfold rstrip. rewrite rev_app_distr, lstrip_app.
  now rewrite forallb_rev, H.
Qed.

Lemma rstrip_all_space (s : str) : forallb isspace s = true -> rstrip s = [].
Proof.
  intros H. unfold rstrip. rewrite lstrip_all_space; [reflexivity|].
  now rewrite forallb_rev.
Qed.

Lemma rstrip_space_cons (c : ascii) (t : str) :
  isspace c = true -> forallb isspace t = false ->
  rstrip (c :: t) = c :: rstrip t.
Proof.
  intros Hc Ht. unfold rstrip. simpl.
  rewrite lstrip_app, forallb_rev, Ht. now rewrite rev_app_distr.
Qed.

Lemma lstrip_rstrip (s : str) : lstrip (rstrip s) = rstrip (lstrip s).
Proof.
  induction s as [|c t IH]; [reflexivity|].
  destruct (isspace c) eqn:Hc.
  - simpl lstrip at 2. rewrite Hc.
    destruct (forallb isspace t) eqn:Ht.
    + rewrite rstrip_all_space by (simpl; now rewrite Hc).
      rewrite (lstrip_all_space t Ht). reflexivity.
    + rewrite rstrip_space_cons by assumption. simpl. now rewrite Hc.
  - rewrite rstrip_cons by assumption. simpl. rewrite Hc.
    now rewrite rstrip_cons.
Qed.

Lemma strip_app_space_l (a b : str) :
  forallb isspace a = true -> strip (a ++ b) = strip b.
Proof. intros H. unfold strip. now rewrite lstrip_app, H. Qed.

Lemma strip_app_space_r (a b : str) :
  forallb isspace b = true -> strip (a ++ b) = strip a.
Proof.
  intros H. unfold strip. rewrite <- !lstrip_rstrip.
  now rewrite rstrip_app_space.
Qed.

(** What a successful [p+] has consumed: a run of the class that ends with
    the character [c], after which the rest of the pattern matches. *)
Lemma plus_match_sound (A : Type) (p : ascii -> bool) (g : option str)
    (k : mstate -> option A) (a : A) (s : str) :
  plus_match p s g k = Some a ->
  exists run c rest,
    s = run ++ c :: rest /\ forallb p (run ++ [c]) = true /\
    k (MState (Some c) rest g) = Some a.
Proof.
  induction s as [|c s IH]; simpl; [discriminate|].
  destruct (p c) eqn:Hc; [|discriminate].
  destruct (plus_match p s g k) as [a'|] eqn:E.
  - intros [= ->]. destruct (IH eq_refl) as (run & c' & rest & -> & Hr & Hk).
    exists (c :: run), c', rest. simpl. now rewrite Hc.
  - intros Hk. exists [], c, s. simpl. now rewrite Hc.
Qed.

(** [p+] succeeds as soon as some run of the class is followed by a match
    of the rest of the pattern. *)
Lemma plus_match_complete (A : Type) (p : ascii -> bool) (g : option str)
    (k : mstate -> option A) (run : str) (c : ascii) (rest : str) :
  forallb p (run ++ [c]) = true ->
  k (MState (Some c) rest g) <> None ->
  plus_match p (run ++ c :: rest) g k <> None.
Proof.
  induction run as [|x run IH]; simpl.
  - rewrite andb_true_r. intros -> Hk.
    destruct (plus_match p rest g k); congruence.
  - rewrite andb_true_iff. intros [-> Hr] Hk.
    specialize (IH Hr Hk).
    destruct (plus_match p (run ++ c :: rest) g k); congruence.
Qed.

Lemma snoc_nonempty (run : str) (c : ascii) : run ++ [c] <> [].
Proof. now destruct run. Qed.

Lemma city_tail_sound (prev : option ascii) (g0 : option str) (r : str)
    (st : mstate) :
  re_match city_tail (MState prev r g0) (fun x => Some x) = Some st ->
  exists ws words g,
    r = ws ++ words /\
    ws <> [] /\ forallb isspace ws = true /\
    words <> [] /\ forallb city_char words = true /\
    m_group st = Some g /\ strip g = strip words.
Proof.
  cbn [city_tail re_match m_rest m_group m_prev]. intros H.
  apply plus_match_sound in H.
  destruct H as (run1 & c1 & r2 & -> & Hws & H).
  cbn [m_rest m_group m_prev] in H.
  apply plus_match_sound in H.
  destruct H as (run2 & c2 & r3 & -> & Hwords & H).
  cbn [m_rest m_group m_prev] in H.
  assert (Hg : firstn (length (run2 ++ c2 :: r3) - length r3)
                 (run2 ++ c2 :: r3) = run2 ++ [c2]).
  { replace (run2 ++ c2 :: r3) with ((run2 ++ [c2]) ++ r3)
      by now rewrite <- app_assoc.
    rewrite length_app, Nat.add_sub, firstn_app, Nat.sub_diag, firstn_all.
    simpl. apply app_nil_r. }
  rewrite Hg in H.
  exists (run1 ++ [c1]), ((run2 ++ [c2]) ++ r3), (run2 ++ [c2]).
  destruct r3 as [|c3 [|? ?]]; [| |discriminate].
  - injection H as <-. rewrite app_nil_r, <- !app_assoc.
    repeat split; auto using snoc_nonempty.
  - destruct (Ascii.eqb c3 "010"%char) eqn:E3; [|discriminate].
    apply Ascii.eqb_eq in E3. subst c3. injection H as <-.
    rewrite <- !app_assoc. repeat split; auto.
    + apply snoc_nonempty.
    + now destruct run2.
    + rewrite app_assoc, forallb_app, Hwords. reflexivity.
    + rewrite app_assoc. symmetry. now apply strip_app_space_r.
Qed.

Lemma city_tail_complete (prev : option ascii) (g0 : option str)
    (ws words : str) :
  ws <> [] -> forallb isspace ws = true ->
  words <> [] -> forallb city_char words = true ->
  re_match city_tail (MState prev (ws ++ words) g0) (fun x => Some x)
  <> None.
Proof.
  intros Hws1 Hws2 Hw1 Hw2.
  destruct (exists_last Hws1) as (run1 & c1 & ->).
  destruct (exists_last Hw1) as (run2 & c2 & ->).
  cbn [city_tail re_match m_rest m_group m_prev].
  rewrite <- app_assoc. simpl app at 2.
  apply plus_match_complete; [assumption|].
  cbn [m_rest m_group m_prev].
  replace (run2 ++ [c2]) with (run2 ++ c2 :: []) by reflexivity.
  apply plus_match_complete; [assumption|].
  cbn. discriminate.
Qed.

Lemma city_here_unfold (prev : option ascii) (s : str) :
  match_here city_re prev s =
    match strip_prefix (L "in") s with
    | Some r =>
        match re_match city_tail (MState (Some "n"%char) r None)
                (fun x => Some x) with
        | Some st => Some st
        | None =>
            match strip_prefix (L "of") s with
            | Some r' =>
                re_match city_tail (MState (Some "f"%char) r' None)
                  (fun x => Some x)
            | None => None
            end
        end
    | None =>
        match strip_prefix (L "of") s with
        | Some r' =>
            re_match city_tail (MState (Some "f"%char) r' None)
              (fun x => Some x)
        | None => None
        end
    end.
Proof.
  unfold match_here, city_re.
  cbn [re_match m_rest m_group m_prev].
  destruct (strip_prefix (L "in") s); destruct (strip_prefix (L "of") s);
    reflexivity.
Qed.

Lemma city_phrase_strip (s words : str) :
  city_phrase s words -> strip words = strip (skipn 2 s).
Proof.
  intros (kw & ws & -> & Hkw & _ & Hws & _).
  destruct Hkw as [-> | ->]; simpl; now rewrite strip_app_space_l.
Qed.

Lemma city_here_sound (prev : option ascii) (s : str) (st : mstate) :
  match_here city_re prev s = Some st ->
  exists words g,
    city_phrase s words /\ m_group st = Some g /\ strip g = strip words.
Proof.
  rewrite city_here_unfold.
  assert (Hkw : forall kw p r,
            kw = L "in" \/ kw = L "of" ->
            strip_prefix kw s = Some r ->
            re_match city_tail (MState p r None) (fun x => Some x) = Some st ->
            exists words g,
              city_phrase s words /\ m_group st = Some g /\
              strip g = strip words).
  { intros kw p r Hkw Hp Hm. apply strip_prefix_inv in Hp.
    apply city_tail_sound in Hm.
    destruct Hm as (ws & words & g & -> & H1 & H2 & H3 & H4 & H5 & H6).
    exists words, g. repeat split; try assumption.
    now exists kw, ws. }
  destruct (strip_prefix (L "in") s) as [r|] eqn:Ein.
  - destruct (re_match city_tail _ _) as [st'|] eqn:Em.
    + intros [= ->]. apply (Hkw (L "in") (Some "n"%char) r); auto.
    + destruct (strip_prefix (L "of") s) as [r'|] eqn:Eof; [|discriminate].
      intros Hm. apply (Hkw (L "of") (Some "f"%char) r'); auto.
  - destruct (strip_prefix (L "of") s) as [r'|] eqn:Eof; [|discriminate].
    intros Hm. apply (Hkw (L "of") (Some "f"%char) r'); auto.
Qed.

Lemma city_here_complete (prev : option ascii) (s words : str) :
  city_phrase s words -> match_here city_re prev s <> None.
Proof.
  intros (kw & ws & -> & Hkw & H1 & H2 & H3 & H4).
  rewrite city_here_unfold.
  destruct Hkw as [-> | ->].
  - rewrite strip_prefix_app.
    pose proof (@city_tail_complete (Some "n"%char) None ws words H1 H2 H3 H4).
    destruct (re_match city_tail _ _); congruence.
  - replace (strip_prefix (L "in") (L "of" ++ ws ++ words)) with (@None str)
      by reflexivity.
    rewrite strip_prefix_app.
    now apply city_tail_complete.
Qed.

Lemma search_city_None (li : str) :
  re_search city_re li = None ->
  forall pre words, ~ phrase_at li pre words.
Proof.
  unfold re_search. rewrite search_from_None.
  intros H pre words (post & Hli & Hph).
  now apply (@city_here_complete (last_char pre None) post words Hph), H.
Qed.

Lemma search_city_Some (li : str) (n : nat) (st : mstate) :
  re_search city_re li = Some (n, st) ->
  exists pre words g,
    length pre = n /\ first_phrase li pre words /\
    m_group st = Some g /\ strip g = strip words.
Proof.
  unfold re_search. rewrite search_from_Some.
  intros (pre & post & Hli & -> & Hm & Hleft).
  apply city_here_sound in Hm. destruct Hm as (words & g & Hph & Hg & Hs).
  exists pre, words, g. repeat split; try assumption.
  - now exists post.
  - intros pre' words' (post' & Hli' & Hph').
    destruct (Nat.le_gt_cases (length pre) (length pre')) as [|Hlt];
      [assumption|].
    exfalso.
    apply (@city_here_complete (last_char pre' None) post' words' Hph').
    now apply Hleft.
Qed.

Lemma first_phrase_unique (li pre1 words1 pre2 words2 : str) :
  first_phrase li pre1 words1 -> first_phrase li pre2 words2 ->
  strip words1 = strip words2.
Proof.
  intros [H1 L1] [H2 L2].
  pose proof (L1 _ _ H2) as Le1. pose proof (L2 _ _ H1) as Le2.
  destruct H1 as (post1 & E1 & P1). destruct H2 as (post2 & E2 & P2).
  assert (Hpost : post1 = post2).
  { rewrite E1 in E2. apply app_eq_app in E2.
    destruct E2 as (l & [[-> ->]|[-> ->]]).
    - rewrite length_app in Le1. destruct l; [reflexivity|simpl in Le1; lia].
    - rewrite length_app in Le2. destruct l; [reflexivity|simpl in Le2; lia]. }
  subst post2.
  now rewrite (city_phrase_strip P1), (city_phrase_strip P2).
Qed.

(** C6. When the lower-cased utterance ends with "in" or "of", whitespace,
    and words of letters, whitespace and commas, the city is those words,
    trimmed and title-cased, for the first such phrase from the left;
    when it does not, the city is the whole utterance, title-cased. One of
    the two cases always applies. *)
Theorem detect_city_rule :
  (forall user_input pre words,
     first_phrase (lower user_input) pre words ->
     detect_city user_input = title (strip words)) /\
  (forall user_input,
     (forall pre words, ~ phrase_at (lower user_input) pre words) ->
     detect_city user_input = title user_input) /\
  (forall user_input,
     (exists pre words, first_phrase (lower user_input) pre words) \/
     (forall pre words, ~ phrase_at (lower user_input) pre words)) /\
  detect_city (L "currency of japan") = L "Japan" /\
  detect_city (L "Tokyo") = L "Tokyo".
Proof.
  split; [|split; [|split; [|split]]].
  - intros u pre words Hfirst. unfold detect_city.
    destruct (re_search city_re (lower u)) as [[n st]|] eqn:E.
    + apply search_city_Some in E.
      destruct E as (pre0 & words0 & g & _ & H0 & Hg & Hs).
      cbn [group1]. rewrite Hg, Hs.
      now rewrite (first_phrase_unique H0 Hfirst).
    + exfalso. destruct Hfirst as [Hph _].
      revert Hph. now apply search_city_None.
  - intros u Hnone. unfold detect_city.
    destruct (re_search city_re (lower u)) as [[n st]|] eqn:E;
      [|reflexivity].
    apply search_city_Some in E.
    destruct E as (pre0 & words0 & g & _ & [H0 _] & _).
    exfalso. exact (Hnone _ _ H0).
  - intros u.
    destruct (re_search city_re (lower u)) as [[n st]|] eqn:E.
    + left. apply search_city_Some in E.
      destruct E as (pre0 & words0 & g & _ & H0 & _).
      now exists pre0, words0.
    + right. now apply search_city_None.
  - vm_compute. reflexivity.
  - vm_compute. reflexivity.
Qed.

Lemma first_phrase_by_search (li pre post words : str) (st : mstate) :
  li = pre ++ post -> city_phrase post words ->
  re_search city_re li = Some (length pre, st) ->
  first_phrase li pre words.
Proof.
  intros Hli Hph E. split; [now exists post|].
  apply search_city_Some in E.
  destruct E as (pre0 & words0 & g & Hlen & [_ H0] & _).
  intros pre' words' H'. rewrite <- Hlen. exact (H0 pre' words' H').
Qed.

Lemma detect_city_rule_witness :
  first_phrase (lower (L "Weather IN new york")) (L "weather ") (L "new york")
  /\ detect_city (L "Weather IN new york") = L "New York"
  /\ (forall pre words, ~ phrase_at (lower (L "Berlin")) pre words)
  /\ detect_city (L "Berlin") = L "Berlin".
Proof.
  assert (H1 : first_phrase (lower (L "Weather IN new york"))
                 (L "weather ") (L "new york")).
  { eapply first_phrase_by_search with (post := L "in new york").
    - reflexivity.
    - exists (L "in"), (L " "). repeat split; auto; discriminate.
    - vm_compute. reflexivity. }
  assert (H2 : forall pre words, ~ phrase_at (lower (L "Berlin")) pre words).
  { apply search_city_None. vm_compute. reflexivity. }
  split; [exact H1|]. split.
  - exact (proj1 detect_city_rule _ _ _ H1).
  - split; [exact H2|].
    exact (proj1 (proj2 detect_city_rule) _ H2).
Defined.

(** ** Splitting at the delimiters *)

Lemma alt_of_None (A : Type) (lits : list str) (st : mstate)
    (k : mstate -> option A) :
  lits <> [] ->
  (forall l, In l lits -> strip_prefix l (m_rest st) = None) ->
  re_match (alt_of lits) st k = None.
Proof.
  induction lits as [|l [|l' ls] IH]; intros Hne H; [congruence| |].
  - simpl. now rewrite (H l (or_introl eq_refl)).
  - change (alt_of (l :: l' :: ls)) with (Alt (Lit l) (alt_of (l' :: ls))).
    cbn [re_match]. rewrite (H l (or_introl eq_refl)).
    apply IH; [discriminate|]. intros x Hx. apply H. now right.
Qed.

Lemma alt_of_Some (A : Type) (lits : list str) (st : mstate)
    (k : mstate -> option A) (a : A) :
  lits <> [] ->
  re_match (alt_of lits) st k = Some a ->
  exists l rest,
    In l lits /\ m_rest st = l ++ rest /\
    k (MState (last_char l (m_prev st)) rest (m_group st)) = Some a.
Proof.
  induction lits as [|l [|l' ls] IH]; intros Hne; [congruence| |].
  - simpl. destruct (strip_prefix l (m_rest st)) as [rest|] eqn:E;
      [|discriminate].
    intros Hk. exists l, rest. apply strip_prefix_inv in E. auto.
  - change (alt_of (l :: l' :: ls)) with (Alt (Lit l) (alt_of (l' :: ls))).
    cbn [re_match].
    destruct (strip_prefix l (m_rest st)) as [rest|] eqn:E.
    + destruct (k _) as [a'|] eqn:Ek.
      * intros [= <-]. exists l, rest. apply strip_prefix_inv in E.
        repeat split; auto. now left.
      * intros H. destruct (IH ltac:(discriminate) H) as (x & r & Hx & Hr & Hk).
        exists x, r. repeat split; auto. now right.
    + intros H. destruct (IH ltac:(discriminate) H) as (x & r & Hx & Hr & Hk).
      exists x, r. repeat split; auto. now right.
Qed.

Lemma delimiters_nonempty : delimiters <> [].
Proof. discriminate. Qed.

(** A match of [pattern] is one of the delimiters, which is the group. *)
Lemma pattern_here_Some (prev : option ascii) (s : str) (st : mstate) :
  match_here pattern prev s = Some st ->
  exists d rest,
    In d delimiters /\ s = d ++ rest /\
    m_rest st = rest /\ m_group st = Some d.
Proof.
  unfold match_here, pattern. cbn [re_match]. intros H.
  apply alt_of_Some in H; [|exact delimiters_nonempty].
  destruct H as (d & rest & Hd & Hs & H).
  cbn [m_rest m_prev m_group] in *. subst s. injection H as <-.
  exists d, rest. cbn. repeat split; auto.
  rewrite length_app, Nat.add_sub, firstn_app, Nat.sub_diag, firstn_all.
  simpl. now rewrite app_nil_r.
Qed.

Lemma pattern_here_None (prev : option ascii) (s : str) :
  (forall d, In d delimiters -> startswith d s = false) ->
  match_here pattern prev s = None.
Proof.
  intros H. unfold match_here, pattern. cbn [re_match].
  apply alt_of_None; [exact delimiters_nonempty|].
  intros d Hd. specialize (H d Hd). unfold startswith in H. cbn.
  now destruct (strip_prefix d s).
Qed.

Lemma split_from_no_match (s : str) :
  forall prev acc,
  (forall d, In d delimiters -> contains d s = false) ->
  split_from pattern prev s 0 acc = [rev acc ++ s].
Proof.
  induction s as [|c s IH]; intros prev acc H; simpl.
  - now rewrite app_nil_r.
  - rewrite pattern_here_None.
    + rewrite IH.
      * simpl. now rewrite <- app_assoc.
      * intros d Hd. specialize (H d Hd). cbn [contains] in H.
        now apply orb_false_iff in H.
    + intros d Hd. specialize (H d Hd). cbn [contains] in H.
      now apply orb_false_iff in H.
Qed.

(** The pieces of [re.split], put together again, are the text. *)
Lemma split_from_concat (s : str) :
  forall prev skip acc,
  skip <= length s ->
  concat (split_from pattern prev s skip acc) = rev acc ++ skipn skip s.
Proof.
  induction s as [|c s IH]; intros prev skip acc Hskip.
  - simpl in Hskip. replace skip with 0 by lia. simpl.
    now rewrite app_nil_r.
  - assert (Hno : concat (split_from pattern (Some c) s 0 (c :: acc))
                  = rev acc ++ c :: s).
    { rewrite IH by lia. simpl. now rewrite <- app_assoc. }
    destruct skip as [|n]; cbn [split_from].
    + destruct (match_here pattern prev (c :: s)) as [st|] eqn:E;
        [|exact Hno].
      apply pattern_here_Some in E.
      destruct E as (d & rest & Hd & Hs & Hrest & Hg).
      rewrite Hrest, Hg, Hs, length_app, Nat.add_sub.
      destruct (length d) as [|n] eqn:En; [rewrite <- Hs; exact Hno|].
      assert (Hlen : length (c :: s) = S n + length rest)
        by now rewrite Hs, length_app, En.
      simpl in Hlen. simpl concat. rewrite IH by lia. simpl rev.
      simpl app at 2.
      replace (skipn n s) with rest; [reflexivity|].
      change (skipn n s) with (skipn (S n) (c :: s)).
      rewrite Hs, <- En, skipn_app, Nat.sub_diag, skipn_all. reflexivity.
    + simpl in Hskip. rewrite IH by lia. reflexivity.
Qed.

Lemma re_split_concat (s : str) : concat (re_split pattern s) = s.
Proof. unfold re_split. now rewrite split_from_concat by lia. Qed.

Example re_split_delhi :
  re_split pattern delhi_blob
  = [L ""; L "Destination:"; L "Delhi "; L "Country:"; L "India ";
     L "Standard Time / Timezone:"; L "IST "; L "Currency:";
     L "INR (Indian Rupee)"].
Proof. vm_compute. reflexivity. Qed.

Example re_split_adjacent :
  re_split pattern (L "Country:Currency:x")
  = [L ""; L "Country:"; L ""; L "Currency:"; L "x"] /\
  parse_raw_info (L "Country:Currency:x") = [(L "Currency", L "x")].
Proof. vm_compute. split; reflexivity. Qed.

Lemma fill_single (part : str) : fill [part] None [] = [].
Proof.
  simpl. destruct (strip part); [reflexivity|].
  now destruct (endswith_char ":" part).
Qed.

(** C9. On the empty string, and on a text in which no catalog name
    followed by a colon occurs, the parser returns the empty mapping; being
    a total function, it returns on every input. *)
Theorem parse_raw_info_no_delimiter (info_text : str) :
  info_text = [] \/
  (forall key, In key keys -> ~ substring (key ++ L ":") info_text) ->
  parse_raw_info info_text = [].
Proof.
  intros [->|H]; [reflexivity|].
  destruct info_text as [|c s]; [reflexivity|].
  unfold parse_raw_info, re_split.
  rewrite split_from_no_match; [apply fill_single|].
  intros d Hd. apply contains_false_iff.
  unfold delimiters in Hd. apply in_map_iff in Hd.
  destruct Hd as (key & <- & Hkey). now apply H.
Qed.

Lemma parse_raw_info_no_delimiter_witness :
  parse_raw_info
    (L "Sorry, I couldn't find data for 'Atlantis'. Make sure the city name is spelled correctly.")
  = [].
Proof.
  apply parse_raw_info_no_delimiter. right. intros key Hk.
  apply contains_false_iff.
  repeat (destruct Hk as [<-|Hk]; [vm_compute; reflexivity|]).
  destruct Hk.
Defined.

(** ** The walk over the pieces *)

Lemma mem_In (x : str) (l : list str) : mem x l = true <-> In x l.
Proof.
  unfold mem. rewrite existsb_exists. split.
  - intros (y & Hy & E). apply str_eqb_eq in E. now subst.
  - intros H. exists x. split; [assumption|apply str_eqb_refl].
Qed.

(** Every delimiter is a catalog name and a colon: it is not blank, it
    ends with a colon, and the key the code derives from it is the name. *)
Lemma delimiter_facts (part : str) :
  is_delimiter part = true ->
  blank part = false /\ endswith_char ":" part = true /\
  strip (rstrip_char ":" part) = key_of part /\
  key_of part <> [] /\ In (key_of part) keys /\ part = key_of part ++ L ":".
Proof.
  unfold is_delimiter. rewrite mem_In. intros H.
  repeat (destruct H as [<-|H];
          [vm_compute; repeat split; try discriminate; tauto|]).
  destruct H.
Qed.

Lemma fill_spec_fill (parts : list str) :
  forall current_key record,
  no_colon_text parts = true ->
  current_key <> Some [] ->
  fill parts current_key record = spec_fill parts current_key record.
Proof.
  induction parts as [|part parts IH]; intros ck record H Hck;
    [reflexivity|].
  cbn [no_colon_text forallb] in H. apply andb_true_iff in H.
  destruct H as [Hp H].
  cbn [fill spec_fill]. unfold blank.
  destruct (strip part) as [|x xs] eqn:Es; [now apply IH|].
  destruct (is_delimiter part) eqn:Ed.
  - destruct (delimiter_facts _ Ed) as (_ & -> & -> & Hk & _).
    apply IH; [assumption|congruence].
  - simpl in Hp. apply negb_true_iff in Hp. rewrite Hp.
    destruct ck as [[|c key]|]; [congruence| |];
      apply IH; (assumption || discriminate).
Qed.

Lemma dict_set_fresh (d : dict) (k v : str) :
  ~ In k (map fst d) -> dict_set d k v = d ++ [(k, v)].
Proof.
  induction d as [|[k' v'] d IH]; simpl; intros H; [reflexivity|].
  destruct (str_eqb k' k) eqn:E.
  - apply str_eqb_eq in E. tauto.
  - rewrite IH; tauto.
Qed.

Lemma distinct_NoDup (l : list str) : distinct l = true -> NoDup l.
Proof.
  induction l as [|x xs IH]; simpl; [constructor|].
  rewrite andb_true_iff, negb_true_iff. intros [Hx Hxs].
  constructor; [|now apply IH].
  rewrite <- mem_In. congruence.
Qed.

(** With distinct keys every assignment of the walk appends an entry. *)
Lemma spec_fill_keys (parts : list str) :
  forall current_key record,
  NoDup (map fst record ++ valued_keys parts current_key) ->
  map fst (spec_fill parts current_key record)
  = map fst record ++ valued_keys parts current_key.
Proof.
  induction parts as [|part parts IH]; intros ck record H; simpl.
  - now rewrite app_nil_r.
  - simpl in H. destruct (blank part); [now apply IH|].
    destruct (is_delimiter part); [now apply IH|].
    destruct ck as [key|]; [|now apply IH].
    assert (Hfresh : ~ In key (map fst record)).
    { apply NoDup_remove_2 in H. intros Hin. apply H.
      apply in_or_app. now left. }
    rewrite IH; rewrite dict_set_fresh by assumption;
      rewrite map_app; simpl; rewrite <- app_assoc; [reflexivity|assumption].
Qed.

Lemma count_valued (parts : list str) :
  forall current_key,
  length (valued_keys parts current_key) + valueless parts
  = count_delims parts
    + (match current_key with
       | Some _ => if next_is_text parts then 1 else 0
       | None => 0
       end).
Proof.
  unfold count_delims.
  induction parts as [|part parts IH]; intros ck.
  - simpl. now destruct ck.
  - cbn [valued_keys valueless next_is_text filter].
    destruct (is_delimiter part) eqn:Ed.
    + destruct (delimiter_facts _ Ed) as (-> & _).
      specialize (IH (Some (key_of part))). cbn [negb length andb].
      destruct (next_is_text parts); destruct ck; simpl in *; lia.
    + destruct (blank part).
      * rewrite <- IH. simpl. lia.
      * destruct ck as [key|]; specialize (IH None); simpl in *; lia.
Qed.

Lemma fill_skip_blanks (blanks parts : list str) (ck : option str)
    (record : dict) :
  forallb blank blanks = true ->
  fill (blanks ++ parts) ck record = fill parts ck record.
Proof.
  induction blanks as [|b blanks IH]; simpl; [reflexivity|].
  rewrite andb_true_iff. unfold blank at 1. intros [Hb H].
  destruct (strip b); [now apply IH|discriminate].
Qed.

Lemma fill_delimiter (d : str) (parts : list str) (ck : option str)
    (record : dict) :
  is_delimiter d = true ->
  fill (d :: parts) ck record = fill parts (Some (key_of d)) record.
Proof.
  intros Hd. destruct (delimiter_facts _ Hd) as (Hb & He & Hk & _).
  cbn [fill]. unfold blank in Hb.
  destruct (strip d); [discriminate|]. now rewrite He, Hk.
Qed.

Lemma parse_spec_parse (blob : str) :
  no_colon_text (re_split pattern blob) = true ->
  parse_raw_info blob = spec_parse blob.
Proof.
  intros H. destruct blob as [|c blob]; [reflexivity|].
  unfold parse_raw_info, spec_parse. now apply fill_spec_fill.
Qed.

(** C2, as stated: a value text that ends with a colon is taken for a key,
    so a blob with one catalog "Key:value" yields no entry; and a key that
    occurs twice with a value yields one entry, not two. *)
Lemma parse_walk_counterexample :
  (re_split pattern (L "Country:India:") = [L ""; L "Country:"; L "India:"] /\
   is_delimiter (L "India:") = false /\
   spec_parse (L "Country:India:") = [(L "Country", L "India:")] /\
   parse_raw_info (L "Country:India:") = [] /\
   length (parse_raw_info (L "Country:India:"))
   <> count_delims (re_split pattern (L "Country:India:"))
      - valueless (re_split pattern (L "Country:India:"))) /\
  (parse_raw_info (L "Country:a Country:b") = [(L "Country", L "b")] /\
   length (parse_raw_info (L "Country:a Country:b"))
   <> count_delims (re_split pattern (L "Country:a Country:b"))
      - valueless (re_split pattern (L "Country:a Country:b"))).
Proof.
  vm_compute. repeat split; discriminate.
Qed.

(** C2, amended. The parser walks the pieces from left to right with a
    current key. A blank piece is skipped and leaves the state as it is. A
    piece that equals a catalog delimiter, a catalog name and a colon,
    sets the current key to that name. A text piece that does not end with
    a colon becomes the trimmed value of the current key, if one is set,
    and clears it. A delimiter followed by another delimiter, with nothing
    but blank pieces between, yields no entry of its own. Hence, for a blob
    none of whose text pieces ends with a colon, the parser agrees with the
    walk of the specification; if moreover no key has two occurrences with
    a value, the entries are those occurrences, N minus the ones without
    value text. *)
Theorem parse_raw_info_walk :
  (forall part parts current_key record,
     (blank part = true ->
      fill (part :: parts) current_key record
      = fill parts current_key record) /\
     (is_delimiter part = true ->
      fill (part :: parts) current_key record
      = fill parts (Some (key_of part)) record) /\
     (blank part = false -> endswith_char ":" part = false ->
      truthy current_key = true ->
      exists key,
        current_key = Some key /\
        fill (part :: parts) current_key record
        = fill parts None (dict_set record key (strip part))) /\
     (blank part = false -> endswith_char ":" part = false ->
      truthy current_key = false ->
      fill (part :: parts) current_key record
      = fill parts current_key record)) /\
  (forall part,
     is_delimiter part = true <->
     exists key, In key keys /\ part = key ++ L ":" /\ key_of part = key) /\
  (forall d1 blanks d2 parts current_key record,
     is_delimiter d1 = true -> forallb blank blanks = true ->
     is_delimiter d2 = true ->
     fill (d1 :: blanks ++ d2 :: parts) current_key record
     = fill (d2 :: parts) current_key record) /\
  (forall blob,
     no_colon_text (re_split pattern blob) = true ->
     parse_raw_info blob = spec_parse blob) /\
  (forall blob,
     no_colon_text (re_split pattern blob) = true ->
     distinct (valued_keys (re_split pattern blob) None) = true ->
     map fst (parse_raw_info blob) = valued_keys (re_split pattern blob) None
     /\ length (parse_raw_info blob)
        = count_delims (re_split pattern blob)
          - valueless (re_split pattern blob)).
Proof.
  split; [|split; [|split; [|split]]].
  - intros part parts ck record. split; [|split; [|split]].
    + unfold blank. cbn [fill]. now destruct (strip part).
    + apply fill_delimiter.
    + unfold blank. cbn [fill]. destruct (strip part); [discriminate|].
      intros _ -> Hck. destruct ck as [[|c key]|]; try discriminate.
      now exists (c :: key).
    + unfold blank. cbn [fill]. destruct (strip part); [discriminate|].
      intros _ -> Hck. destruct ck as [[|c key]|]; try discriminate;
        reflexivity.
  - intros part. split.
    + intros Hd. destruct (delimiter_facts _ Hd) as (_ & _ & _ & _ & Hk & E).
      now exists (key_of part).
    + intros (key & Hk & -> & _).
      repeat (destruct Hk as [<-|Hk]; [reflexivity|]). destruct Hk.
  - intros d1 blanks d2 parts ck record H1 Hb H2.
    rewrite (fill_delimiter _ _ _ _ H1), (fill_skip_blanks _ _ _ _ Hb).
    now rewrite !(fill_delimiter _ _ _ _ H2).
  - exact parse_spec_parse.
  - intros blob Hc Hd.
    assert (Hkeys : map fst (parse_raw_info blob)
                    = valued_keys (re_split pattern blob) None).
    { rewrite (parse_spec_parse _ Hc). unfold spec_parse.
      rewrite spec_fill_keys; [reflexivity|].
      simpl. now apply distinct_NoDup. }
    split; [exact Hkeys|].
    pose proof (count_valued (re_split pattern blob) None) as Hn.
    cbv beta iota in Hn.
    rewrite <- (length_map fst (parse_raw_info blob)), Hkeys. lia.
Qed.

Lemma parse_raw_info_walk_witness :
  let blob :=
    L "Destination:Delhi Country:Currency:INR (Indian Rupee) Travel Tips: " in
  no_colon_text (re_split pattern blob) = true /\
  distinct (valued_keys (re_split pattern blob) None) = true /\
  parse_raw_info blob = spec_parse blob /\
  map fst (parse_raw_info blob) = [L "Destination"; L "Currency"] /\
  length (parse_raw_info blob) = 4 - 2.
Proof.
  intros blob.
  assert (H1 : no_colon_text (re_split pattern blob) = true)
    by (vm_compute; reflexivity).
  assert (H2 : distinct (valued_keys (re_split pattern blob) None) = true)
    by (vm_compute; reflexivity).
  destruct parse_raw_info_walk as (_ & _ & _ & Hagree & Hcount).
  split; [exact H1|]. split; [exact H2|]. split; [exact (Hagree blob H1)|].
  exact (Hcount blob H1 H2).
Defined.

(** ** The chat turn *)

(** The pipeline alone: for "time of Delhi" the intent detection gives the
    city "Delhi" and the field "Standard Time / Timezone"; the parsed blob,
    asked for that field, gives the text of the field; and so would the
    branch of the turn that fetches and formats, if the turn reached it. *)
Lemma time_of_delhi :
  detect_city (L "time of Delhi") = L "Delhi" /\
  detect_field (L "time of Delhi") = Some (L "Standard Time / Timezone") /\
  parse_raw_info delhi_blob
  = [(L "Destination", L "Delhi"); (L "Country", L "India");
     (L "Standard Time / Timezone", L "IST");
     (L "Currency", L "INR (Indian Rupee)")] /\
  extract_field (parse_raw_info delhi_blob) (L "Standard Time / Timezone")
  = L "**Standard Time / Timezone:** IST" /\
  (forall (World : Type) (w : World) (detect_language : str -> str),
     answer (fun _ w0 => (delhi_blob, w0)) detect_language
       (L "time of Delhi") initial_session w
     = (L "**Standard Time / Timezone:** IST",
        Session (Some (L "Delhi")) (parse_raw_info delhi_blob), w)).
Proof.
  repeat split; vm_compute; reflexivity.
Qed.

(** C1, on the code. The chat turn does not give the reply of the
    pipeline for "time of Delhi": the greeting test, which comes before the
    intent detection, looks for "hi" anywhere in the lower-cased utterance,
    and "delhi" holds it, so the turn replies with the greeting, whatever
    the provider and the session, and asks the provider nothing. The loop
    of [main.py], which compares the whole line with the greeting words,
    passes the same utterance on to the provider. *)
Theorem respond_time_of_delhi (World : Type)
    (get_destination_info : str -> World -> str * World)
    (detect_language : str -> str) (ss : session) (w : World) :
  contains (L "hi") (lower (strip (L "time of Delhi"))) = true /\
  respond get_destination_info detect_language (L "time of Delhi") ss w
  = (greeting_reply, ss, w) /\
  fst (fst (respond get_destination_info detect_language
              (L "time of Delhi") ss w))
  <> L "**Standard Time / Timezone:** IST" /\
  cli_turn get_destination_info (fun _ => L "en") (L "time of Delhi") w
  = (Continue (L "Bot: " ++ fst (get_destination_info (L "Time Of Delhi") w)),
     snd (get_destination_info (L "Time Of Delhi") w)).
Proof.
  split; [reflexivity|]. split; [reflexivity|]. split.
  - change (fst (fst (respond get_destination_info detect_language
                        (L "time of Delhi") ss w)))
      with greeting_reply.
    vm_compute. discriminate.
  - unfold cli_turn.
    change (title (strip (L "time of Delhi"))) with (L "Time Of Delhi").
    change (mem (lower (strip (L "time of Delhi")))
              [L "bye"; L "exit"; L "quit"]) with false.
    change (mem (lower (strip (L "time of Delhi")))
              [L "hi"; L "hello"; L "hey"]) with false.
    change (str_eqb (L "en") (L "en")) with true.
    cbn [negb andb].
    rewrite andb_false_r.
    now destruct (get_destination_info (L "Time Of Delhi") w).
Qed.

Lemma opt_eqb_eq (o : option str) (s : str) :
  opt_eqb o s = true <-> o = Some s.
Proof.
  destruct o as [x|]; simpl; [|split; discriminate].
  rewrite str_eqb_eq. split; congruence.
Qed.

Lemma current_info_is_valid_iff (ss : session) (city : str) :
  current_info_is_valid ss city = true <->
  last_city ss = Some city /\ parsed_info ss <> [].
Proof.
  unfold current_info_is_valid.
  rewrite andb_true_iff, opt_eqb_eq.
  destruct (parsed_info ss); simpl; split; intros [H1 H2]; split;
    congruence.
Qed.

(** C4, as stated: the session holds Paris with a non-empty record, the
    utterance names Paris again, and the provider is asked all the same,
    because the utterance requests no field. *)
Lemma session_cache_counterexample :
  let ss := Session (Some (L "Paris")) [(L "Destination", L "Paris")] in
  detect_city (L "Paris") = L "Paris" /\
  last_city ss = Some (L "Paris") /\ parsed_info ss <> [] /\
  snd (respond (logging_provider (L "Destination:Paris Country:France"))
         (fun _ => L "en") (L "Paris") ss [])
  = [L "Paris"].
Proof.
  vm_compute. repeat split; discriminate.
Qed.

(** C4, amended. The cached record is used, and the provider left alone,
    if and only if the city of the last turn is exactly this city, the
    cached record is non-empty and the utterance requests a field. In every
    other case the provider is asked, and the parsed answer replaces the
    cache entry. In particular, once Paris is cached with a non-empty
    record R, a field request about Paris is answered from R, and one about
    London asks the provider. *)
Theorem session_cache_contract (World : Type)
    (get_destination_info : str -> World -> str * World) :
  (forall ss city,
     current_info_is_valid ss city = true <->
     last_city ss = Some city /\ parsed_info ss <> []) /\
  (forall ss w city found_field,
     current_info_is_valid ss city = true -> truthy found_field = true ->
     resolve_data get_destination_info ss w city found_field
     = (parsed_info ss, ss, w)) /\
  (forall ss w city found_field,
     current_info_is_valid ss city = false \/ truthy found_field = false ->
     let fetched := get_destination_info city w in
     resolve_data get_destination_info ss w city found_field
     = (parse_raw_info (fst fetched),
        Session (Some city) (parse_raw_info (fst fetched)),
        snd fetched)) /\
  (forall R w field,
     R <> [] -> field <> [] ->
     let ss := Session (Some (L "Paris")) R in
     let fetched := get_destination_info (L "London") w in
     resolve_data get_destination_info ss w (L "Paris") (Some field)
     = (R, ss, w) /\
     resolve_data get_destination_info ss w (L "London") (Some field)
     = (parse_raw_info (fst fetched),
        Session (Some (L "London")) (parse_raw_info (fst fetched)),
        snd fetched)).
Proof.
  assert (Hhit : forall ss w city found_field,
            current_info_is_valid ss city = true ->
            truthy found_field = true ->
            resolve_data get_destination_info ss w city found_field
            = (parsed_info ss, ss, w)).
  { intros ss w city f Hv Hf. unfold resolve_data. now rewrite Hv, Hf. }
  assert (Hmiss : forall ss w city found_field,
            current_info_is_valid ss city = false \/
            truthy found_field = false ->
            resolve_data get_destination_info ss w city found_field
            = (parse_raw_info (fst (get_destination_info city w)),
               Session (Some city)
                 (parse_raw_info (fst (get_destination_info city w))),
               snd (get_destination_info city w))).
  { intros ss w city f H. unfold resolve_data.
    assert (E : negb (current_info_is_valid ss city) || negb (truthy f)
                = true).
    { destruct H as [-> | ->]; simpl; [reflexivity|apply orb_true_r]. }
    rewrite E. now destruct (get_destination_info city w). }
  split; [exact current_info_is_valid_iff|].
  split; [exact Hhit|]. split; [exact Hmiss|].
  intros R w field HR Hf ss fetched. split.
  - apply Hhit.
    + apply current_info_is_valid_iff. now split.
    + now destruct field.
  - apply Hmiss. left.
    unfold current_info_is_valid. now destruct R.
Qed.

Lemma session_cache_contract_witness :
  let provider := logging_provider (L "Destination:London Country:UK") in
  let R := [(L "Destination", L "Paris"); (L "Currency", L "EUR (Euro)")] in
  let ss := Session (Some (L "Paris")) R in
  (current_info_is_valid ss (L "Paris") = true /\
   truthy (Some (L "Currency")) = true /\
   resolve_data provider ss [] (L "Paris") (Some (L "Currency"))
   = (R, ss, [])) /\
  (current_info_is_valid ss (L "London") = false /\
   snd (resolve_data provider ss [] (L "London") (Some (L "Currency")))
   = [L "London"]) /\
  (truthy None = false /\
   snd (resolve_data provider ss [] (L "Paris") None) = [L "Paris"]).
Proof.
  intros provider R ss.
  destruct (session_cache_contract provider) as (_ & Hhit & Hmiss & _).
  split; [|split].
  - split; [reflexivity|]. split; [reflexivity|].
    apply Hhit; reflexivity.
  - split; [reflexivity|].
    rewrite (Hmiss ss [] (L "London") (Some (L "Currency")));
      [reflexivity|left; reflexivity].
  - split; [reflexivity|].
    rewrite (Hmiss ss [] (L "Paris") None); [reflexivity|right; reflexivity].
Defined.

(** * Further properties *)

(** ** The parsed record *)

Lemma split_from_alternating (s : str) :
  forall prev skip acc,
  alternating true (split_from pattern prev s skip acc).
Proof.
  induction s as [|c s IH]; intros prev skip acc; [reflexivity|].
  cbn [split_from]. destruct skip as [|n]; [|apply IH].
  destruct (match_here pattern prev (c :: s)) as [st|] eqn:E; [|apply IH].
  apply pattern_here_Some in E.
  destruct E as (d & rest & Hd & _ & _ & Hg). rewrite Hg.
  destruct (length (c :: s) - length (m_rest st)); [apply IH|].
  cbn [alternating]. split; [|apply IH].
  unfold is_delimiter. now apply mem_In.
Qed.

Lemma dict_set_Forall (Q : str * str -> Prop) (d : dict) (k v : str) :
  Forall Q d -> Q (k, v) -> Forall Q (dict_set d k v).
Proof.
  intros Hd Hq. induction Hd as [|[k' v'] d Hx Hd IH]; simpl.
  - now constructor.
  - destruct (str_eqb k' k) eqn:E.
    + apply str_eqb_eq in E. subst k'. now constructor.
    + now constructor.
Qed.

Lemma dict_set_keys_incl (d : dict) (k v : str) (x : str) :
  In x (map fst (dict_set d k v)) -> x = k \/ In x (map fst d).
Proof.
  induction d as [|[k' v'] d IH]; simpl.
  - intros [<-|[]]. now left.
  - destruct (str_eqb k' k); simpl; intuition.
Qed.

Lemma dict_set_NoDup (d : dict) (k v : str) :
  NoDup (map fst d) -> NoDup (map fst (dict_set d k v)).
Proof.
  induction d as [|[k' v'] d IH]; simpl; intros H.
  - constructor; [tauto|constructor].
  - destruct (str_eqb k' k) eqn:E; simpl; [assumption|].
    inversion H as [|? ? Hk Hd]; subst. constructor; [|now apply IH].
    intros Hin. apply dict_set_keys_incl in Hin.
    apply str_eqb_neq in E. destruct Hin; [congruence|contradiction].
Qed.

Lemma fill_NoDup (parts : list str) :
  forall ck record,
  NoDup (map fst record) -> NoDup (map fst (fill parts ck record)).
Proof.
  induction parts as [|part parts IH]; intros ck record H; [assumption|].
  cbn [fill]. destruct (strip part); [now apply IH|].
  destruct (endswith_char ":" part); [now apply IH|].
  destruct ck as [[|c key]|]; try now apply IH.
  apply IH. now apply dict_set_NoDup.
Qed.

Lemma fill_entries_ok (parts : list str) :
  forall record,
  Forall entry_ok record ->
  (alternating true parts ->
   forall ck, (forall key, ck = Some key -> key = [] \/ In key keys) ->
   Forall entry_ok (fill parts ck record)) /\
  (alternating false parts ->
   forall ck, Forall entry_ok (fill parts ck record)).
Proof.
  induction parts as [|part parts IH]; intros record Hrec.
  - split; intros; assumption.
  - split.
    + cbn [alternating]. intros Halt ck Hck. cbn [fill].
      destruct (strip part) as [|x xs] eqn:Es;
        [now apply (proj2 (IH record Hrec))|].
      destruct (endswith_char ":" part);
        [now apply (proj2 (IH record Hrec))|].
      destruct ck as [[|c key]|]; try now apply (proj2 (IH record Hrec)).
      apply IH; [|assumption].
      apply dict_set_Forall; [assumption|].
      destruct (Hck (c :: key) eq_refl) as [|Hin]; [discriminate|].
      repeat split; cbn [fst snd].
      * exact Hin.
      * discriminate.
      * rewrite <- Es. apply strip_idem.
    + cbn [alternating]. intros [Hd Halt] ck.
      rewrite (fill_delimiter _ _ _ _ Hd).
      apply (proj1 (IH record Hrec)); [assumption|].
      intros key [= <-]. right.
      now destruct (delimiter_facts _ Hd) as (_ & _ & _ & _ & Hk & _).
Qed.

Lemma parse_entries_ok (info_text : str) :
  Forall entry_ok (parse_raw_info info_text).
Proof.
  destruct info_text as [|c s]; [constructor|].
  unfold parse_raw_info, re_split.
  apply (proj1 (fill_entries_ok _ (Forall_nil entry_ok)));
    [apply split_from_alternating|discriminate].
Qed.

(** X1. Whatever the text, every key of the parsed record is one of the
    nine catalog names: a text that ends with a colon is taken for a key,
    but the piece after it is a delimiter, so such a key never gets a
    value. *)
Theorem parse_keys_in_catalog (info_text key value : str) :
  In (key, value) (parse_raw_info info_text) -> In key keys.
Proof.
  intros H. pose proof (parse_entries_ok info_text) as Hall.
  rewrite Forall_forall in Hall. exact (proj1 (Hall _ H)).
Qed.

Lemma parse_keys_in_catalog_witness :
  In (L "Country", L "India")
    (parse_raw_info (L "note: Country:India Currency:")) /\
  In (L "Country") keys.
Proof.
  assert (H : In (L "Country", L "India")
                (parse_raw_info (L "note: Country:India Currency:")))
    by (vm_compute; auto).
  split; [exact H|]. exact (parse_keys_in_catalog _ _ _ H).
Defined.

(** X2. Every value of the parsed record is trimmed and is not empty. *)
Theorem parse_values_trimmed (info_text key value : str) :
  In (key, value) (parse_raw_info info_text) ->
  value <> [] /\ strip value = value.
Proof.
  intros H. pose proof (parse_entries_ok info_text) as Hall.
  rewrite Forall_forall in Hall. exact (proj2 (Hall _ H)).
Qed.

Lemma parse_values_trimmed_witness :
  In (L "Country", L "India")
    (parse_raw_info (L "Country:   India  Currency: ")) /\
  L "India" <> [] /\ strip (L "India") = L "India".
Proof.
  assert (H : In (L "Country", L "India")
                (parse_raw_info (L "Country:   India  Currency: ")))
    by (vm_compute; auto).
  split; [exact H|]. exact (parse_values_trimmed _ _ _ H).
Defined.

(** X3. The keys of the parsed record are distinct, so that it has at most
    nine entries. *)
Theorem parse_keys_distinct (info_text : str) :
  NoDup (map fst (parse_raw_info info_text)) /\
  length (parse_raw_info info_text) <= 9.
Proof.
  assert (Hnd : NoDup (map fst (parse_raw_info info_text))).
  { destruct info_text as [|c s]; [constructor|].
    apply fill_NoDup. constructor. }
  split; [exact Hnd|].
  rewrite <- (length_map fst).
  change 9 with (length keys).
  apply NoDup_incl_length; [exact Hnd|].
  intros key Hin. apply in_map_iff in Hin.
  destruct Hin as ([k v] & <- & Hin).
  pose proof (parse_entries_ok info_text) as Hall.
  rewrite Forall_forall in Hall. exact (proj1 (Hall _ Hin)).
Qed.

(** ** From the lines of the provider to the record *)

Lemma alt_of_complete (A : Type) (lits : list str) (st : mstate)
    (k : mstate -> option A) (l : str) :
  In l lits -> strip_prefix l (m_rest st) <> None ->
  (forall st', k st' <> None) ->
  re_match (alt_of lits) st k <> None.
Proof.
  intros Hin Hp Hk. induction lits as [|x [|y ys] IH]; [destruct Hin| |].
  - destruct Hin as [->|[]]. simpl.
    destruct (strip_prefix l (m_rest st)); [apply Hk|congruence].
  - change (alt_of (x :: y :: ys)) with (Alt (Lit x) (alt_of (y :: ys))).
    cbn [re_match].
    destruct (strip_prefix x (m_rest st)) as [r|] eqn:E.
    + destruct (k _) eqn:Ek; [discriminate|]. now apply Hk in Ek.
    + destruct Hin as [->|Hin]; [congruence|]. now apply IH.
Qed.

(** No delimiter is the beginning of another one. *)
Lemma delimiters_prefix_free (d d' r r' : str) :
  In d delimiters -> In d' delimiters -> d ++ r = d' ++ r' ->
  d = d' /\ r = r'.
Proof.
  intros Hd Hd' H.
  repeat (destruct Hd as [<-|Hd];
          [repeat (destruct Hd' as [<-|Hd'];
                   [cbn in H; split; congruence|]);
           destruct Hd'|]).
  destruct Hd.
Qed.

Lemma pattern_here_delimiter (prev : option ascii) (d rest : str) :
  In d delimiters ->
  exists st,
    match_here pattern prev (d ++ rest) = Some st /\
    m_rest st = rest /\ m_group st = Some d.
Proof.
  intros Hd.
  destruct (match_here pattern prev (d ++ rest)) as [st|] eqn:E.
  - exists st. split; [reflexivity|].
    apply pattern_here_Some in E.
    destruct E as (d' & rest' & Hd' & Hs & Hr & Hg).
    destruct (@delimiters_prefix_free d d' rest rest' Hd Hd' Hs) as [-> ->].
    now split.
  - exfalso. revert E. unfold match_here, pattern. cbn [re_match].
    apply alt_of_complete with (l := d); [assumption| |discriminate].
    cbn. now rewrite strip_prefix_app.
Qed.

Lemma split_from_skip (r : regex) (x rest : str) :
  forall prev acc,
  split_from r prev (x ++ rest) (length x) acc
  = split_from r (last_char x prev) rest 0 acc.
Proof.
  induction x as [|c x IH]; intros prev acc; [reflexivity|].
  cbn [app length split_from]. rewrite IH. now rewrite last_char_cons.
Qed.

Lemma split_delimiter_first (prev : option ascii) (d rest acc : str) :
  In d delimiters ->
  split_from pattern prev (d ++ rest) 0 acc
  = rev acc :: d :: split_from pattern (last_char d prev) rest 0 [].
Proof.
  intros Hd.
  destruct (@pattern_here_delimiter prev d rest Hd) as (st & Hm & Hr & Hg).
  destruct d as [|c d].
  { exfalso. clear -Hd.
    repeat (destruct Hd as [Hd|Hd]; [discriminate|]). destruct Hd. }
  cbn [app split_from]. cbn [app] in Hm. rewrite Hm, Hr, Hg.
  replace (length (c :: d ++ rest) - length rest) with (S (length d))
    by (cbn [length]; rewrite length_app; lia).
  now rewrite split_from_skip, last_char_cons.
Qed.

Lemma split_text_first (t s2 : str) :
  (forall a b d, t = a ++ b -> b <> [] -> In d delimiters ->
     startswith d (b ++ s2) = false) ->
  forall prev acc,
  split_from pattern prev (t ++ s2) 0 acc
  = split_from pattern (last_char t prev) s2 0 (rev t ++ acc).
Proof.
  induction t as [|c t IH]; intros H prev acc; [reflexivity|].
  cbn [app split_from].
  rewrite pattern_here_None.
  - rewrite IH.
    + rewrite last_char_cons. simpl. now rewrite <- app_assoc.
    + intros a b d Ht Hb Hd. apply (H (c :: a) b d); [|assumption..].
      simpl. now rewrite Ht.
  - intros d Hd. apply (H [] (c :: t) d); [reflexivity|discriminate|exact Hd].
Qed.

Lemma delimiter_chars (d : str) :
  In d delimiters ->
  forallb (fun c => negb (Ascii.eqb c "010"%char)) d = true /\
  startswith [" "%char] d = false /\ d <> [].
Proof.
  intros Hd.
  repeat (destruct Hd as [<-|Hd];
          [vm_compute; repeat split; discriminate|]).
  destruct Hd.
Qed.

(** A delimiter that begins inside the value text of a line lies in the
    value. *)
Lemma value_text_clean (v s2 a b d : str) :
  delimiter_free v ->
  " "%char :: v ++ nl = a ++ b -> b <> [] -> In d delimiters ->
  startswith d (b ++ s2) = false.
Proof.
  intros Hv Ht Hb Hd.
  destruct (startswith d (b ++ s2)) eqn:E; [exfalso|reflexivity].
  apply startswith_iff in E. destruct E as [r E].
  destruct (@delimiter_chars d Hd) as (Hnl & Hsp & Hne).
  destruct (exists_last Hb) as (b' & x & ->).
  assert (Hx : " "%char :: v = a ++ b' /\ "010"%char = x).
  { change (" "%char :: v ++ nl) with ((" "%char :: v) ++ ["010"%char]) in Ht.
    rewrite app_assoc in Ht. now apply app_inj_tail in Ht. }
  destruct Hx as [Hv' <-].
  assert (Hpre : exists l, b' = d ++ l).
  { rewrite <- app_assoc in E. apply app_eq_app in E.
    destruct E as (l & [[Hb' _]|[Hd' Hl]]); [now exists l|].
    destruct l as [|y l]; [exists []; now rewrite app_nil_r in *|].
    injection Hl as <- _. subst d. rewrite forallb_app in Hnl.
    apply andb_true_iff in Hnl. destruct Hnl as [_ Hnl]. discriminate. }
  destruct Hpre as [l ->].
  destruct a as [|y a].
  - destruct d as [|c d]; [congruence|].
    injection Hv' as <- _. discriminate.
  - injection Hv' as _ ->.
    unfold delimiters in Hd. apply in_map_iff in Hd.
    destruct Hd as (key & <- & Hkey).
    apply (Hv key Hkey). now exists a, l.
Qed.

Lemma render_lines_cons (kv : str * str) (entries : list (str * str)) :
  render_lines (kv :: entries)
  = (fst kv ++ L ":") ++ (" "%char :: snd kv ++ nl) ++ render_lines entries.
Proof.
  unfold render_lines. cbn [map concat].
  rewrite <- !app_assoc. f_equal.
  change (L ": " ++ snd kv ++ nl ++ ?x) with (L ":" ++ " "%char :: snd kv ++ nl ++ x).
  f_equal. cbn [app]. now rewrite <- app_assoc.
Qed.

Lemma split_render_lines (entries : list (str * str)) :
  well_formed entries ->
  forall prev acc,
  split_from pattern prev (render_lines entries) 0 acc
  = rev acc :: flat_map line_pieces entries.
Proof.
  induction entries as [|[k v] entries IH]; intros Hwf prev acc;
    [reflexivity|].
  destruct (Hwf k v (or_introl eq_refl)) as (Hk & Hv & _).
  rewrite render_lines_cons. cbn [fst snd].
  rewrite split_delimiter_first
    by (unfold delimiters; apply in_map_iff; now exists k).
  rewrite split_text_first
    by (intros a b d Ht Hb Hd; now apply (@value_text_clean v _ a b d)).
  rewrite IH by (intros k' v' Hin; apply Hwf; now right).
  rewrite app_nil_r, rev_involutive. reflexivity.
Qed.

Lemma key_delimiter (key : str) :
  In key keys ->
  is_delimiter (key ++ L ":") = true /\ key_of (key ++ L ":") = key /\
  key <> [].
Proof.
  intros Hk.
  repeat (destruct Hk as [<-|Hk];
          [vm_compute; repeat split; discriminate|]).
  destruct Hk.
Qed.

Lemma value_text_strip (v : str) : strip (" "%char :: v ++ nl) = strip v.
Proof.
  rewrite strip_space_cons by reflexivity.
  now apply strip_app_space_r.
Qed.

Lemma value_text_no_colon (v : str) :
  endswith_char ":" (" "%char :: v ++ nl) = false.
Proof.
  unfold endswith_char.
  change (" "%char :: v ++ nl) with ((" "%char :: v) ++ ["010"%char]).
  now rewrite rev_app_distr.
Qed.

Lemma fill_line_pieces (entries : list (str * str)) :
  well_formed entries ->
  forall ck record,
  fill (flat_map line_pieces entries) ck record = assign_all entries record.
Proof.
  induction entries as [|[k v] entries IH]; intros Hwf ck record;
    [reflexivity|].
  destruct (Hwf k v (or_introl eq_refl)) as (Hk & _ & Hv).
  destruct (key_delimiter Hk) as (Hd & Hkey & Hne).
  cbn [flat_map line_pieces fst snd app].
  rewrite (fill_delimiter _ _ _ _ Hd), Hkey.
  cbn [fill]. rewrite value_text_strip, value_text_no_colon.
  destruct (strip v) as [|x xs] eqn:Ev; [congruence|].
  destruct k as [|c k]; [congruence|].
  unfold assign_all. cbn [fold_left fst snd]. rewrite Ev.
  apply IH. intros k' v' Hin. apply Hwf. now right.
Qed.

Lemma assign_all_distinct (entries : list (str * str)) :
  forall record,
  NoDup (map fst record ++ map fst entries) ->
  assign_all entries record = record ++ trimmed entries.
Proof.
  unfold assign_all, trimmed.
  induction entries as [|[k v] entries IH]; intros record H; simpl.
  - now rewrite app_nil_r.
  - simpl in H. rewrite dict_set_fresh.
    + rewrite IH.
      * now rewrite <- app_assoc.
      * rewrite map_app. simpl. now rewrite <- app_assoc.
    + apply NoDup_remove_2 in H. intros Hin. apply H.
      apply in_or_app. now left.
Qed.

Lemma parse_render_assign (entries : list (str * str)) :
  well_formed entries ->
  parse_raw_info (render_lines entries) = assign_all entries [].
Proof.
  intros Hwf.
  destruct entries as [|kv entries]; [reflexivity|].
  unfold parse_raw_info.
  destruct (render_lines (kv :: entries)) as [|c s] eqn:E.
  { rewrite render_lines_cons in E.
    destruct (fst kv); discriminate. }
  rewrite <- E. unfold re_split. rewrite split_render_lines by assumption.
  change (fill (rev [] :: flat_map line_pieces (kv :: entries)) None [])
    with (fill (flat_map line_pieces (kv :: entries)) None []).
  now apply fill_line_pieces.
Qed.

Lemma parse_render_trimmed (entries : list (str * str)) :
  well_formed entries -> NoDup (map fst entries) ->
  parse_raw_info (render_lines entries) = trimmed entries.
Proof.
  intros Hwf Hnd. rewrite parse_render_assign by assumption.
  now rewrite assign_all_distinct.
Qed.

(** X4. Lines "Key: value", one per catalog name used, with values that are
    not blank and hold no delimiter, parse back to the keys and the trimmed
    values, in the order of the lines; a key that comes twice keeps its
    place and takes the later value. *)
Theorem parse_render_lines (entries : list (str * str)) :
  well_formed entries ->
  parse_raw_info (render_lines entries) = assign_all entries [] /\
  (NoDup (map fst entries) ->
   parse_raw_info (render_lines entries) = trimmed entries).
Proof.
  intros Hwf. split; [now apply parse_render_assign|].
  now apply parse_render_trimmed.
Qed.

Ltac solve_well_formed :=
  let key := fresh "key" in
  let value := fresh "value" in
  let H := fresh "H" in
  intros key value H;
  repeat (destruct H as [[= <- <-]|H];
          [split; [vm_compute; tauto|];
           split; [|vm_compute; discriminate];
           let k := fresh "k" in
           let Hk := fresh "Hk" in
           intros k Hk; apply contains_false_iff;
           repeat (destruct Hk as [<-|Hk]; [vm_compute; reflexivity|]);
           destruct Hk|]);
  destruct H.

Lemma parse_render_lines_witness :
  let entries :=
    [(L "Country", L "India"); (L "Currency", L "INR (Indian Rupee)");
     (L "Country", L " Bharat ")] in
  well_formed entries /\
  parse_raw_info (L "Country: India
Currency: INR (Indian Rupee)
Country:  Bharat 
")
  = [(L "Country", L "Bharat"); (L "Currency", L "INR (Indian Rupee)")] /\
  NoDup (map fst (firstn 2 entries)) /\
  parse_raw_info (render_lines (firstn 2 entries))
  = [(L "Country", L "India"); (L "Currency", L "INR (Indian Rupee)")].
Proof.
  intros entries.
  assert (Hwf : well_formed entries) by (unfold entries; solve_well_formed).
  assert (Hwf2 : well_formed (firstn 2 entries))
    by (unfold entries; cbn [firstn]; solve_well_formed).
  assert (Hnd : NoDup (map fst (firstn 2 entries))).
  { apply distinct_NoDup. vm_compute. reflexivity. }
  split; [exact Hwf|]. split; [|split; [exact Hnd|]].
  - exact (proj1 (parse_render_lines Hwf)).
  - exact (proj2 (parse_render_lines Hwf2) Hnd).
Defined.

Lemma build_reply_lines (v : reply_values) :
  build_reply v = render_lines (reply_entries v).
Proof.
  unfold build_reply, render_lines, reply_entries.
  cbn [map concat fst snd]. rewrite <- !app_assoc. reflexivity.
Qed.



(** ** Asking for a field *)

Lemma dict_get_In (d : dict) (k v : str) :
  NoDup (map fst d) -> In (k, v) d -> dict_get d k = Some v.
Proof.
  induction d as [|[k' v'] d IH]; simpl; intros Hnd Hin; [destruct Hin|].
  destruct Hin as [E|Hin].
  - injection E as -> ->. now rewrite str_eqb_refl.
  - inversion Hnd as [|? ? Hk Hd]; subst.
    destruct (str_eqb k' k) eqn:E; [|now apply IH].
    apply str_eqb_eq in E. subst k'. exfalso. apply Hk.
    now apply (in_map fst) in Hin.
Qed.

Lemma dict_get_set_same (d : dict) (k v : str) :
  dict_get (dict_set d k v) k = Some v.
Proof.
  induction d as [|[k' v'] d IH]; simpl.
  - now rewrite str_eqb_refl.
  - destruct (str_eqb k' k) eqn:E; simpl; now rewrite E.
Qed.

Lemma dict_get_set_other (d : dict) (k v k' : str) :
  k' <> k -> dict_get (dict_set d k v) k' = dict_get d k'.
Proof.
  intros Hne. induction d as [|[k0 v0] d IH]; simpl.
  - destruct (str_eqb k k') eqn:E; [|reflexivity].
    apply str_eqb_eq in E. congruence.
  - destruct (str_eqb k0 k) eqn:E; simpl.
    + apply str_eqb_eq in E. subst k0.
      destruct (str_eqb k k') eqn:E'; [|reflexivity].
      apply str_eqb_eq in E'. congruence.
    + now rewrite IH.
Qed.

Lemma dict_get_Some_In (d : dict) (k v : str) :
  dict_get d k = Some v -> In (k, v) d.
Proof.
  induction d as [|[k' v'] d IH]; simpl; [discriminate|].
  destruct (str_eqb k' k) eqn:E.
  - apply str_eqb_eq in E. subst k'. intros [= ->]. now left.
  - intros H. right. now apply IH.
Qed.

Lemma extract_field_present (d : dict) (field value : str) :
  dict_get d field = Some value ->
  extract_field d field = L "**" ++ field ++ L ":** " ++ shown field value.
Proof.
  intros H. unfold extract_field, shown.
  destruct d as [|kv d]; [discriminate|]. now rewrite H.
Qed.

(** X6. Assigning a field and asking for it shows the value assigned,
    whatever the record held; asking for another field shows what asking
    the record before the assignment shows. *)
Theorem extract_field_after_set (d : dict) (k v field : str) :
  extract_field (dict_set d k v) k
  = L "**" ++ k ++ L ":** " ++ shown k v /\
  (field <> k -> d <> [] ->
   extract_field (dict_set d k v) field = extract_field d field).
Proof.
  split.
  - apply extract_field_present, dict_get_set_same.
  - intros Hne Hd. unfold extract_field.
    rewrite dict_get_set_other by assumption.
    destruct d as [|[k' v'] d]; [congruence|].
    simpl. now destruct (str_eqb k' k).
Qed.

Lemma extract_field_after_set_witness :
  let d := [(L "Country", L "India")] in
  L "Country" <> L "Currency" /\ d <> [] /\
  extract_field (dict_set d (L "Currency") (L "INR")) (L "Country")
  = L "**Country:** India".
Proof.
  intros d.
  assert (H1 : L "Country" <> L "Currency") by discriminate.
  assert (H2 : d <> []) by discriminate.
  split; [exact H1|]. split; [exact H2|].
  rewrite (proj2 (extract_field_after_set d (L "Currency") (L "INR")
                    (L "Country")) H1 H2).
  reflexivity.
Defined.

(** X7. Asked for a field, the record parsed from well-formed lines with
    distinct keys shows the trimmed value of the line of that field, and
    the filtered value for "Places to Visit"; asked for a field that has no
    line, it says that it could not find it for that destination. *)
Theorem extract_field_of_lines (entries : list (str * str)) (field : str) :
  well_formed entries -> NoDup (map fst entries) -> entries <> [] ->
  (forall value,
     In (field, value) entries ->
     extract_field (parse_raw_info (render_lines entries)) field
     = L "**" ++ field ++ L ":** " ++ shown field (strip value)) /\
  (~ In field (map fst entries) ->
   extract_field (parse_raw_info (render_lines entries)) field
   = L "Sorry, I couldn't find " ++ lower field
       ++ L " information for that destination.").
Proof.
  intros Hwf Hnd Hne.
  rewrite (parse_render_trimmed Hwf Hnd).
  assert (Hkeys : map fst (trimmed entries) = map fst entries).
  { unfold trimmed. rewrite map_map. reflexivity. }
  split.
  - intros value Hin. apply extract_field_present, dict_get_In.
    + now rewrite Hkeys.
    + unfold trimmed. apply in_map_iff. now exists (field, value).
  - intros Hno. unfold extract_field.
    destruct (trimmed entries) as [|kv d] eqn:E.
    { destruct entries; [congruence|discriminate]. }
    rewrite <- E in *.
    destruct (dict_get (trimmed entries) field) as [value|] eqn:Eg;
      [|reflexivity].
    exfalso. apply Hno. rewrite <- Hkeys.
    apply dict_get_Some_In in Eg. now apply (in_map fst) in Eg.
Qed.

Lemma extract_field_of_lines_witness :
  let entries :=
    [(L "Country", L "France");
     (L "Places to Visit", L "Louvre, 2024 Summer Olympics, Montmartre")] in
  well_formed entries /\ NoDup (map fst entries) /\ entries <> [] /\
  extract_field (parse_raw_info (render_lines entries)) (L "Places to Visit")
  = L "**Places to Visit:** Louvre, Montmartre" /\
  extract_field (parse_raw_info (render_lines entries)) (L "Currency")
  = L "Sorry, I couldn't find currency information for that destination.".
Proof.
  intros entries.
  assert (Hwf : well_formed entries) by (unfold entries; solve_well_formed).
  assert (Hnd : NoDup (map fst entries))
    by (apply distinct_NoDup; reflexivity).
  assert (Hne : entries <> []) by discriminate.
  split; [exact Hwf|]. split; [exact Hnd|]. split; [exact Hne|].
  destruct (extract_field_of_lines (L "Places to Visit") Hwf Hnd Hne)
    as [Hyes _].
  destruct (extract_field_of_lines (L "Currency") Hwf Hnd Hne) as [_ Hno].
  split.
  - rewrite (Hyes (L "Louvre, 2024 Summer Olympics, Montmartre"));
      [reflexivity|right; left; reflexivity].
  - apply Hno. vm_compute. intuition discriminate.
Defined.

(** ** The attractions *)

Lemma join_nonempty (sep x : str) (xs : list str) :
  x <> [] -> join sep (x :: xs) <> [].
Proof.
  intros Hx. destruct xs; simpl; [assumption|].
  destruct x; [congruence|discriminate].
Qed.

(** X8. The filter undoes the joining of the provider: on the text that
    [get_destination_info] makes of titles that are trimmed, not empty and
    without a comma, it drops and keeps whole titles. The text that stands
    for no attractions passes unchanged. *)
Theorem clean_attractions_str (attractions : list str) :
  Forall (fun t => t <> [] /\ ~ In ","%char t /\ strip t = t) attractions ->
  clean_places_to_visit (attractions_str attractions)
  = match attractions with
    | [] => L "No attraction data available."
    | _ :: _ =>
        match filter (fun t => negb (skipped t)) attractions with
        | [] => L "No specific sites listed."
        | kept => join (L ", ") kept
        end
    end.
Proof.
  intros H. destruct attractions as [|t ts]; [vm_compute; reflexivity|].
  cbn [attractions_str].
  assert (Hne : join (L ", ") (t :: ts) <> []).
  { apply join_nonempty. inversion H as [|? ? Ht _]; subst. tauto. }
  rewrite (clean_unfold Hne).
  rewrite items_of_join; [reflexivity|discriminate| |].
  - eapply Forall_impl; [|exact H]. cbv beta. tauto.
  - eapply Forall_impl; [|exact H]. cbv beta. tauto.
Qed.

Lemma clean_attractions_str_witness :
  let attractions :=
    [L "Red Fort"; L "2010 Commonwealth Games"; L "Qutb Minar"] in
  Forall (fun t => t <> [] /\ ~ In ","%char t /\ strip t = t) attractions /\
  clean_places_to_visit (attractions_str attractions)
  = L "Red Fort, Qutb Minar".
Proof.
  intros attractions.
  assert (H : Forall (fun t => t <> [] /\ ~ In ","%char t /\ strip t = t)
                attractions).
  { repeat (constructor;
            [split; [discriminate|split;
               [vm_compute; intuition discriminate|reflexivity]]|]).
    constructor. }
  split; [exact H|].
  rewrite (@clean_attractions_str attractions H). reflexivity.
Defined.

Lemma add_titles_inv (page_title : str) (res : list str) :
  forall attractions,
  NoDup attractions -> ~ In page_title attractions ->
  NoDup (add_titles res page_title attractions) /\
  ~ In page_title (add_titles res page_title attractions).
Proof.
  induction res as [|t res IH]; intros attractions Hnd Hp; [now split|].
  cbn [add_titles].
  destruct (mem t attractions) eqn:Em; cbn [negb andb]; [now apply IH|].
  destruct (str_eqb t page_title) eqn:Et; cbn [negb]; [now apply IH|].
  apply str_eqb_neq in Et.
  assert (Hnt : ~ In t attractions).
  { rewrite <- mem_In. congruence. }
  apply IH.
  - apply NoDup_app; [assumption|repeat constructor; tauto|].
    intros x Hx [<-|[]]. contradiction.
  - rewrite in_app_iff. simpl. intuition congruence.
Qed.

Lemma collect_inv (World : Type)
    (search : str -> nat -> World -> option (list str) * World)
    (page_title : str) (n : nat) (queries : list str) :
  forall attractions w found w',
  NoDup attractions -> ~ In page_title attractions ->
  collect search queries n page_title attractions w = (Some found, w') ->
  NoDup found /\ ~ In page_title found.
Proof.
  induction queries as [|q queries IH];
    intros attractions w found w' Hnd Hp; cbn [collect].
  - intros [= <- _]. now split.
  - destruct (search q n w) as [[res|] w1]; [|discriminate].
    destruct (add_titles_inv page_title res Hnd Hp) as [Hnd' Hp'].
    destruct (n <=? length (add_titles res page_title attractions)).
    + intros [= <- _]. now split.
    + now apply IH.
Qed.

Lemma firstn_incl (n : nat) (l : list str) (x : str) :
  In x (firstn n l) -> In x l.
Proof.
  revert n. induction l as [|y l IH]; intros [|n]; simpl; try tauto.
  intros [H|H]; [now left|right; now apply (IH n)].
Qed.

Lemma NoDup_firstn_str (n : nat) (l : list str) :
  NoDup l -> NoDup (firstn n l).
Proof.
  revert n. induction l as [|x l IH]; intros [|n] H; simpl;
    try constructor.
  - inversion H; subst. intros Hin. apply firstn_incl in Hin. contradiction.
  - inversion H; subst. now apply IH.
Qed.

(** X9. The attractions that [_wiki_summary_and_attractions] returns are
    distinct, are at most [max_attractions], and never hold the title of
    the page of the city; when no summary is returned, because nothing was
    found or a call raised, no attraction is returned either. *)
Theorem wiki_attractions_invariant (World : Type)
    (search : str -> nat -> World -> option (list str) * World)
    (summary : str -> World -> option str * World)
    (city_name : str) (max_attractions : nat) (w : World) :
  let '(text, attractions, _) :=
    wiki_summary_and_attractions search summary city_name max_attractions w
  in
  NoDup attractions /\
  length attractions <= max_attractions /\
  (text = None -> attractions = []) /\
  (forall page_title others w1,
     search city_name 5 w = (Some (page_title :: others), w1) ->
     ~ In page_title attractions).
Proof.
  unfold wiki_summary_and_attractions.
  assert (Hnil : forall (text : option str),
            NoDup (@nil str) /\ length (@nil str) <= max_attractions /\
            (text = None -> @nil str = []) /\
            (forall page_title others w1,
               search city_name 5 w = (Some (page_title :: others), w1) ->
               ~ In page_title [])).
  { intros text. repeat split; [constructor|simpl; lia|auto]. }
  destruct (search city_name 5 w) as [[[|page_title others]|] w1] eqn:Es;
    try apply Hnil.
  destruct (summary page_title w1) as [[text|] w2]; [|apply Hnil].
  destruct (collect search (attraction_queries city_name) max_attractions
              page_title [] w2) as [[found|] w3] eqn:Ec; [|apply Hnil].
  apply collect_inv in Ec; [|constructor|intros []].
  destruct Ec as [Hnd Hp].
  split; [now apply NoDup_firstn_str|].
  split; [apply firstn_le_length|].
  split; [discriminate|].
  intros p o w1' [= <- _ _] Hin. apply Hp. now apply firstn_incl in Hin.
Qed.

(** ** The city and the field, and the case of the letters *)

Lemma lower_char_idem (c : ascii) : lower_char (lower_char c) = lower_char c.
Proof. ascii_cases c. Qed.

Lemma upper_char_idem (c : ascii) : upper_char (upper_char c) = upper_char c.
Proof. ascii_cases c. Qed.

Lemma upper_lower_char (c : ascii) : upper_char (lower_char c) = upper_char c.
Proof. ascii_cases c. Qed.

Lemma isalpha_lower_char (c : ascii) : isalpha (lower_char c) = isalpha c.
Proof. ascii_cases c. Qed.

Lemma isalpha_upper_char (c : ascii) : isalpha (upper_char c) = isalpha c.
Proof. ascii_cases c. Qed.

Lemma lower_idem (s : str) : lower (lower s) = lower s.
Proof.
  unfold lower. rewrite map_map. apply map_ext. apply lower_char_idem.
Qed.

Lemma title_from_lower (s : str) :
  forall b, title_from b (lower s) = title_from b s.
Proof.
  induction s as [|c s IH]; intros b; [reflexivity|].
  cbn [lower map title_from]. fold (lower s).
  rewrite IH, isalpha_lower_char.
  destruct b; now rewrite ?lower_char_idem, ?upper_lower_char.
Qed.

Lemma title_from_idem (s : str) :
  forall b, title_from b (title_from b s) = title_from b s.
Proof.
  induction s as [|c s IH]; intros b; [reflexivity|].
  cbn [title_from]. destruct b.
  - now rewrite lower_char_idem, isalpha_lower_char, IH.
  - now rewrite upper_char_idem, isalpha_upper_char, IH.
Qed.

(** X10. For utterances of characters below 128, the city and the field
    depend on the utterance only up to the case of its letters, and the
    city is in title case: [title] leaves it as it is. *)
Theorem intent_case_insensitive (user_input other_input : str) :
  ascii_text user_input -> ascii_text other_input ->
  lower user_input = lower other_input ->
  detect_city user_input = detect_city other_input /\
  detect_field user_input = detect_field other_input /\
  title (detect_city user_input) = detect_city user_input.
Proof.
  intros _ _ H. unfold detect_city, detect_field, title. rewrite <- H.
  split; [|split; [reflexivity|]].
  - destruct (group1 (re_search city_re (lower user_input)));
      [reflexivity|].
    now rewrite <- (title_from_lower user_input),
                <- (title_from_lower other_input), H.
  - destruct (group1 (re_search city_re (lower user_input)));
      apply title_from_idem.
Qed.

Lemma intent_case_insensitive_witness :
  ascii_text (L "WEATHER in new YORK") /\
  ascii_text (L "weather in New York") /\
  lower (L "WEATHER in new YORK") = lower (L "weather in New York") /\
  detect_city (L "WEATHER in new YORK") = detect_city (L "weather in New York").
Proof.
  assert (H1 : ascii_text (L "WEATHER in new YORK")) by reflexivity.
  assert (H2 : ascii_text (L "weather in New York")) by reflexivity.
  assert (H : lower (L "WEATHER in new YORK") = lower (L "weather in New York"))
    by reflexivity.
  split; [exact H1|]. split; [exact H2|]. split; [exact H|].
  exact (proj1 (@intent_case_insensitive _ _ H1 H2 H)).
Defined.

(** ** The replies of the chat turn *)

Lemma exists_word_iff (words : list str) (li : str) :
  existsb (fun word => contains word li) words = true <->
  exists word, In word words /\ substring word li.
Proof.
  rewrite existsb_exists.
  split; intros (word & Hin & H); exists word; split; try assumption;
    now apply contains_iff.
Qed.

(** X11. A greeting word anywhere in the utterance, inside a longer word
    too, makes the turn reply with the greeting, and leaves the session and
    the provider alone; a farewell word does the same with the farewell,
    when no greeting word is there. Every other utterance is answered by
    the pipeline. *)
Theorem respond_dispatch (World : Type)
    (get_destination_info : str -> World -> str * World)
    (detect_language : str -> str) (prompt : str) (ss : session)
    (w : World) :
  let li := lower (strip prompt) in
  let greets := exists word, In word greetings /\ substring word li in
  let parts := exists word, In word farewells /\ substring word li in
  (greets ->
   respond get_destination_info detect_language prompt ss w
   = (greeting_reply, ss, w)) /\
  (~ greets -> parts ->
   respond get_destination_info detect_language prompt ss w
   = (farewell_reply, ss, w)) /\
  (~ greets -> ~ parts ->
   respond get_destination_info detect_language prompt ss w
   = answer get_destination_info detect_language (strip prompt) ss w).
Proof.
  intros li greets parts. unfold respond. fold li.
  pose proof (exists_word_iff greetings li) as Hg.
  pose proof (exists_word_iff farewells li) as Hf.
  destruct (existsb (fun word => contains word li) greetings).
  - split; [reflexivity|]. split; intros Hn; exfalso; apply Hn;
      now apply Hg.
  - assert (Hng : ~ greets) by (intros H; apply Hg in H; discriminate).
    split; [intros H; contradiction|].
    destruct (existsb (fun word => contains word li) farewells).
    + split; [reflexivity|]. intros _ Hn. exfalso. apply Hn. now apply Hf.
    + split; [|reflexivity]. intros _ H. apply Hf in H. discriminate.
Qed.

Lemma respond_dispatch_witness :
  (exists word, In word greetings /\
     substring word (lower (strip (L "Currency of China")))) /\
  snd (respond (logging_provider (L "Country: China")) (fun _ => L "en")
         (L "Currency of China") initial_session [])
  = [].
Proof.
  assert (H : exists word, In word greetings /\
                substring word (lower (strip (L "Currency of China")))).
  { exists (L "hi"). split; [now left|].
    now exists (L "currency of c"), (L "na"). }
  split; [exact H|].
  rewrite (proj1 (@respond_dispatch _
                    (logging_provider (L "Country: China"))
                    (fun _ => L "en") (L "Currency of China")
                    initial_session []) H).
  reflexivity.
Defined.

Lemma format_info_nonempty (d : dict) : format_info_for_chat d <> [].
Proof.
  destruct d as [|[k v] d]; [discriminate|].
  unfold format_info_for_chat. cbn [flat_map format_entry].
  destruct (mem k long_keys); cbn [app]; apply join_nonempty; discriminate.
Qed.

Lemma extract_field_nonempty (d : dict) (field : str) :
  extract_field d field <> [].
Proof.
  unfold extract_field. destruct d; [discriminate|].
  destruct (dict_get _ field); discriminate.
Qed.

Lemma render_nonempty (detect_language : str -> str)
    (user_input city : str) (found_field : option str) (parsed : dict) :
  render detect_language user_input city found_field parsed <> [].
Proof.
  unfold render. destruct parsed as [|kv d].
  - destruct (negb _); discriminate.
  - destruct found_field as [[|c f]|];
      (apply format_info_nonempty || apply extract_field_nonempty).
Qed.

(** X12. A turn whose provider may raise ends in one of two ways: with a
    reply, which is then a text that is not empty; or with no reply, which
    happens only when the provider was asked for the city of the utterance
    and raised, and then the city and the record of the session are as
    before. With a provider that never raises the turn is [respond], and
    always replies. *)
Theorem respond_raising_reply (World : Type)
    (detect_language : str -> str) (prompt : str) (ss : session)
    (w : World) :
  (forall get_destination_info : str -> World -> option str * World,
     match respond_raising get_destination_info detect_language prompt
             ss w with
     | (Some bot_reply, _, _) => bot_reply <> []
     | (None, ss', _) =>
         ss' = ss /\
         fst (get_destination_info (detect_city (strip prompt)) w) = None
     end) /\
  (forall get_destination_info : str -> World -> str * World,
     respond_raising (returning get_destination_info) detect_language
       prompt ss w
     = let '(bot_reply, ss', w') :=
         respond get_destination_info detect_language prompt ss w in
       (Some bot_reply, ss', w')).
Proof.
  split.
  - intros provider. unfold respond_raising.
    destruct (existsb _ greetings); [discriminate|].
    destruct (existsb _ farewells); [discriminate|].
    unfold resolve_data_raising.
    destruct (negb _ || negb _).
    + destruct (provider (detect_city (strip prompt)) w) as [[raw|] w'].
      * apply render_nonempty.
      * now split.
    + apply render_nonempty.
  - intros provider. unfold respond_raising, respond.
    destruct (existsb _ greetings); [reflexivity|].
    destruct (existsb _ farewells); [reflexivity|].
    unfold answer, resolve_data_raising, resolve_data, returning.
    destruct (negb _ || negb _); [|reflexivity].
    now destruct (provider (detect_city (strip prompt)) w).
Qed.

(** ** The cache over several turns *)

Lemma resolve_data_coherent (World : Type)
    (get_destination_info : str -> World -> str * World)
    (ss : session) (w : World) (city : str) (found_field : option str) :
  coherent get_destination_info ss ->
  coherent get_destination_info
    (snd (fst (resolve_data get_destination_info ss w city found_field))).
Proof.
  intros H. unfold resolve_data.
  destruct (negb _ || negb _); [|exact H].
  destruct (get_destination_info city w) as [raw w'] eqn:E.
  right. exists city, w. cbn. now rewrite E.
Qed.

Lemma respond_coherent (World : Type)
    (get_destination_info : str -> World -> str * World)
    (detect_language : str -> str) (prompt : str) (ss : session)
    (w : World) :
  coherent get_destination_info ss ->
  coherent get_destination_info
    (snd (fst (respond get_destination_info detect_language prompt ss w))).
Proof.
  intros H. unfold respond.
  destruct (existsb _ greetings); [exact H|].
  destruct (existsb _ farewells); [exact H|].
  unfold answer.
  pose proof (@resolve_data_coherent _ get_destination_info ss w
                (detect_city (strip prompt))
                (detect_field (strip prompt)) H) as Hc.
  destruct (resolve_data _ _ _ _ _) as [[parsed ss'] w']. exact Hc.
Qed.

(** X13. Whatever is typed, and whatever the provider does, the record in
    the session is the parsed reply that the provider gave for the city in
    the session, or the session holds no city and no record: this holds
    after every run of turns from the initial session. *)
Theorem run_coherent (World : Type)
    (get_destination_info : str -> World -> str * World)
    (detect_language : str -> str) (prompts : list str) (w : World) :
  coherent get_destination_info
    (snd (fst (run get_destination_info detect_language prompts
                 initial_session w))).
Proof.
  assert (H : coherent get_destination_info initial_session)
    by (left; split; reflexivity).
  revert H. generalize initial_session. revert w.
  induction prompts as [|prompt prompts IH]; intros w ss H; [exact H|].
  cbn [run]. unfold turn.
  destruct prompt as [|c prompt].
  - specialize (IH w ss H).
    destruct (run _ _ prompts ss w) as [[rs ss2] w2]. exact IH.
  - pose proof (@respond_coherent _ get_destination_info detect_language
                  (c :: prompt) ss w H) as Hc.
    destruct (respond _ _ (c :: prompt) ss w) as [[r ss1] w1].
    specialize (IH w1 ss1 Hc).
    destruct (run _ _ prompts ss1 w1) as [[rs ss2] w2]. exact IH.
Qed.

Lemma respond_stateless (World : Type) (reply_for : str -> str)
    (detect_language : str -> str) (prompt : str) (ss : session)
    (w w0 : World) :
  coherent (stateless (World := World) reply_for) ss ->
  fst (fst (respond (stateless reply_for) detect_language prompt ss w))
  = fst (fst (respond (stateless reply_for) detect_language prompt
                initial_session w0)).
Proof.
  intros H. unfold respond.
  destruct (existsb _ greetings); [reflexivity|].
  destruct (existsb _ farewells); [reflexivity|].
  unfold answer, resolve_data, stateless.
  set (city := detect_city (strip prompt)).
  set (field := detect_field (strip prompt)).
  change (current_info_is_valid initial_session city) with false.
  cbn [negb orb fst snd].
  destruct (current_info_is_valid ss city) eqn:Ev; cbn [negb orb];
    [|reflexivity].
  destruct (truthy field); cbn [negb]; [|reflexivity].
  cbn [fst]. f_equal.
  apply current_info_is_valid_iff in Ev. destruct Ev as [Hc Hne].
  destruct H as [[Hnone _]|(city0 & w1 & Hc0 & Hp)]; [congruence|].
  rewrite Hp. cbn. rewrite Hc0 in Hc. injection Hc as Hc. now rewrite Hc.
Qed.

Lemma turn_stateless (World : Type) (reply_for : str -> str)
    (detect_language : str -> str) (prompt : str) (ss : session)
    (w w0 : World) :
  coherent (stateless (World := World) reply_for) ss ->
  fst (fst (turn (stateless reply_for) detect_language prompt ss w))
  = fst (fst (turn (stateless reply_for) detect_language prompt
                initial_session w0)) /\
  coherent (stateless (World := World) reply_for)
    (snd (fst (turn (stateless reply_for) detect_language prompt ss w))).
Proof.
  intros H. unfold turn. destruct prompt as [|c prompt]; [now split|].
  pose proof (@respond_coherent _ (stateless reply_for) detect_language
                (c :: prompt) ss w H) as Hc.
  pose proof (@respond_stateless _ reply_for detect_language
                (c :: prompt) ss w w0 H) as Hr.
  destruct (respond _ _ (c :: prompt) ss w) as [[r ss1] w1].
  destruct (respond _ _ (c :: prompt) initial_session w0)
    as [[r0 ss0] w2].
  cbn [fst snd] in *. now subst r0.
Qed.

(** X14. With a provider whose reply depends on the city only, the cache
    never shows: the replies of a run of turns from the initial session
    are the replies that each prompt gets in a session with nothing
    cached. *)
Theorem cache_transparent (World : Type) (reply_for : str -> str)
    (detect_language : str -> str) (prompts : list str) (w : World) :
  fst (fst (run (stateless reply_for) detect_language prompts
              initial_session w))
  = map (fun prompt =>
           fst (fst (turn (stateless reply_for) detect_language prompt
                       initial_session w)))
      prompts.
Proof.
  assert (H : coherent (stateless (World := World) reply_for)
                initial_session)
    by (left; split; reflexivity).
  revert H. generalize initial_session at 1 2. generalize w at 1.
  induction prompts as [|prompt prompts IH]; intros w1 ss H; [reflexivity|].
  cbn [run map].
  destruct (@turn_stateless _ reply_for detect_language prompt ss w1 w H)
    as [Hr Hc].
  destruct (turn _ _ prompt ss w1) as [[r ss1] w2].
  cbn [fst snd] in Hr, Hc.
  specialize (IH w2 ss1 Hc).
  destruct (run _ _ prompts ss1 w2) as [[rs ss2] w3]. cbn [fst] in *.
  now rewrite Hr, IH.
Qed.

(** ** The whole record as text *)

Lemma substring_trans (a b c : str) :
  substring a b -> substring b c -> substring a c.
Proof.
  intros (p1 & q1 & ->) (p2 & q2 & ->).
  exists (p2 ++ p1), (q1 ++ q2). now rewrite <- !app_assoc.
Qed.

Lemma substring_refl (a : str) : substring a a.
Proof. exists [], []. now rewrite app_nil_r. Qed.

Lemma join_contains (sep x : str) (l : list str) :
  In x l -> substring x (join sep l).
Proof.
  induction l as [|y [|z l] IH]; intros Hin; [destruct Hin| |].
  - destruct Hin as [->|[]]. apply substring_refl.
  - change (join sep (y :: z :: l)) with (y ++ sep ++ join sep (z :: l)).
    destruct Hin as [->|Hin].
    + now exists [], (sep ++ join sep (z :: l)).
    + destruct (IH Hin) as (p & q & E). rewrite E.
      exists (y ++ sep ++ p), q. now rewrite <- !app_assoc.
Qed.

(** X15. The text of the whole record leaves nothing out: it holds every
    key of the record and, for every key, the value that asking for that
    field alone would show. *)
Theorem format_info_shows_all (d : dict) (key value : str) :
  In (key, value) d ->
  substring key (format_info_for_chat d) /\
  substring (shown key value) (format_info_for_chat d).
Proof.
  intros Hin.
  assert (Hfmt : format_info_for_chat d
                 = join nl (flat_map format_entry d))
    by (destruct d; [destruct Hin|reflexivity]).
  rewrite Hfmt.
  assert (He : exists e,
            In e (format_entry (key, value)) /\
            substring key e /\ substring (shown key value) e).
  { unfold format_entry, shown.
    destruct (mem key long_keys) eqn:Em.
    - eexists. split; [right; left; reflexivity|]. split.
      + now exists (L "**"),
          (L ":**" ++ nl
             ++ (if str_eqb key places_key
                 then clean_places_to_visit value else value) ++ nl).
      + exists (L "**" ++ key ++ L ":**" ++ nl), nl.
        now rewrite <- !app_assoc.
    - assert (Hp : str_eqb key places_key = false).
      { destruct (str_eqb key places_key) eqn:E; [|reflexivity].
        apply str_eqb_eq in E. subst key. discriminate. }
      rewrite Hp. eexists. split; [left; reflexivity|]. split.
      + now exists (L "*"), (L ":* **" ++ value ++ L "**").
      + exists (L "*" ++ key ++ L ":* **"), (L "**").
        now rewrite <- !app_assoc. }
  destruct He as (e & Hine & Hk & Hv).
  assert (Hj : substring e (join nl (flat_map format_entry d))).
  { apply join_contains. apply in_flat_map. now exists (key, value). }
  split; eapply substring_trans; eassumption.
Qed.

Lemma format_info_shows_all_witness :
  let d := [(L "Country", L "France");
            (L "Places to Visit", L "Louvre, 2024 Summer Olympics")] in
  In (L "Places to Visit", L "Louvre, 2024 Summer Olympics") d /\
  substring (L "Louvre") (format_info_for_chat d).
Proof.
  intros d.
  assert (H : In (L "Places to Visit", L "Louvre, 2024 Summer Olympics") d)
    by (right; left; reflexivity).
  split; [exact H|].
  exact (proj2 (@format_info_shows_all d _ _ H)).
Defined.

(** ** The command-line loop *)





(** ** When the provider finds nothing, and when it does *)

Lemma substring_split_at (d a b : str) (q : ascii) :
  substring d (a ++ q :: b) -> ~ In q d -> substring d a \/ substring d b.
Proof.
  intros (pre & post & E) Hq. symmetry in E. apply app_eq_app in E.
  destruct E as (l & [[Hpre Hb]|[Ha Hd]]).
  - destruct l as [|y l].
    + destruct d as [|c d].
      * left. exists a, []. now rewrite app_nil_r.
      * simpl in Hb. injection Hb as Hc _. exfalso. apply Hq. now left.
    + simpl in Hb. injection Hb as _ Hb. right. now exists l, post.
  - apply app_eq_app in Hd. destruct Hd as (l2 & [[Hd Hb]|[Hl _]]).
    + destruct l2 as [|y l2].
      * left. exists pre, []. rewrite app_nil_r in *. now subst.
      * simpl in Hb. injection Hb as Hy _. exfalso. apply Hq.
        subst d y. apply in_or_app. right. now left.
    + left. exists pre, l2. now subst.
Qed.








(** ** What the filter never lets through *)

(** Where a factor without the character [q] lies in [a ++ q :: b]. *)
Lemma factor_across (n a b pre post : str) (q : ascii) :
  pre ++ n ++ post = a ++ q :: b -> ~ In q n -> n <> [] ->
  (exists post', a = pre ++ n ++ post' /\ post = post' ++ q :: b) \/
  (exists pre', b = pre' ++ n ++ post /\ pre = a ++ q :: pre').
Proof.
  intros E Hq Hn. apply app_eq_app in E.
  destruct E as (l & [[Hpre Hb]|[Ha Hd]]).
  - destruct l as [|y l].
    + destruct n as [|c n]; [congruence|].
      simpl in Hb. injection Hb as Hc _. exfalso. apply Hq. now left.
    + simpl in Hb. injection Hb as Hy Hb. right. exists l. now subst.
  - apply app_eq_app in Hd. destruct Hd as (l2 & [[Hd Hb]|[Hl Hp]]).
    + destruct l2 as [|y l2].
      * rewrite app_nil_r in Hd. simpl in Hb. left. exists [].
        subst. rewrite app_nil_r. now split.
      * simpl in Hb. injection Hb as Hy _. exfalso. apply Hq.
        subst n y. apply in_or_app. right. now left.
    + left. exists l2. now subst.
Qed.

Lemma last_char_app (a b : str) (d d' : option ascii) :
  b <> [] -> last_char (a ++ b) d = last_char b d'.
Proof.
  intros Hb. destruct (exists_last Hb) as (b' & x & ->).
  unfold last_char. now rewrite app_assoc, !rev_app_distr.
Qed.

Lemma hd_error_app (a b : str) : a <> [] -> hd_error (a ++ b) = hd_error a.
Proof. now destruct a. Qed.

Lemma digit_not_sep (c : ascii) :
  isdigit c = true -> c <> ","%char /\ c <> " "%char.
Proof.
  destruct c as [[] [] [] [] [] [] [] []]; vm_compute; intros H;
    try discriminate; split; discriminate.
Qed.

(** A standalone year of a joined text is one of an item. *)
Lemma year_of_join (x : str) (xs : list str) :
  standalone_year (join (L ", ") (x :: xs)) ->
  exists item, In item (x :: xs) /\ standalone_year item.
Proof.
  revert x. induction xs as [|y ys IH]; intros x H.
  - exists x. split; [now left|exact H].
  - change (join (L ", ") (x :: y :: ys))
      with (x ++ ","%char :: " "%char :: join (L ", ") (y :: ys)) in H.
    destruct H as (pre & d1 & d2 & d3 & d4 & post & E & Hd & Hp & Hq).
    cbn [forallb] in Hd. rewrite !andb_true_iff in Hd.
    destruct Hd as (H1 & H2 & H3 & H4 & _).
    assert (Hno : forall q, q = ","%char \/ q = " "%char ->
                    ~ In q [d1; d2; d3; d4]).
    { intros q Hqs Hin.
      assert (Hdq : isdigit q = true).
      { destruct Hin as [<-|[<-|[<-|[<-|[]]]]]; assumption. }
      apply digit_not_sep in Hdq. tauto. }
    symmetry in E.
    apply factor_across in E; [|apply Hno; now left|discriminate].
    destruct E as [(post' & Ex & Epost)|(pre' & Er & Epre)].
    + exists x. split; [now left|].
      exists pre, d1, d2, d3, d4, post'. repeat split; try assumption.
      * cbn [forallb]. now rewrite H1, H2, H3, H4.
      * destruct post' as [|c post']; [reflexivity|].
        now rewrite Epost in Hq.
    + destruct pre' as [|c pre'].
      { simpl in Er. injection Er as Hc _. exfalso.
        apply (Hno " "%char); [now right|]. left. congruence. }
      simpl in Er. injection Er as Hc Er. subst c.
      destruct (IH y) as (item & Hin & Hy).
      * exists pre', d1, d2, d3, d4, post. repeat split; try assumption.
        -- cbn [forallb]. now rewrite H1, H2, H3, H4.
        -- destruct pre' as [|c pre']; [reflexivity|].
           rewrite Epre in Hp.
           change (x ++ ","%char :: " "%char :: c :: pre')
             with (x ++ [","%char; " "%char] ++ c :: pre') in Hp.
           rewrite app_assoc in Hp.
           now rewrite (@last_char_app _ (c :: pre') None None) in Hp.
      * exists item. split; [now right|exact Hy].
Qed.

Lemma join_lower (l : list str) :
  lower (join (L ", ") l) = join (L ", ") (map lower l).
Proof.
  induction l as [|x [|y l] IH]; [reflexivity|reflexivity|].
  change (join (L ", ") (x :: y :: l))
    with (x ++ L ", " ++ join (L ", ") (y :: l)).
  unfold lower at 1. rewrite !map_app. fold (lower x).
  fold (lower (join (L ", ") (y :: l))). now rewrite IH.
Qed.

(** A factor with no comma, and no space in front, of a joined text
    is one of an item. *)
Lemma factor_of_join (n x : str) (xs : list str) :
  ~ In ","%char n -> startswith [" "%char] n = false -> n <> [] ->
  substring n (join (L ", ") (x :: xs)) ->
  exists item, In item (x :: xs) /\ substring n item.
Proof.
  intros Hc Hs Hn. revert x. induction xs as [|y ys IH]; intros x H.
  - exists x. split; [now left|exact H].
  - change (join (L ", ") (x :: y :: ys))
      with (x ++ ","%char :: (" "%char :: join (L ", ") (y :: ys))) in H.
    apply substring_split_at in H; [|assumption].
    destruct H as [H|(pre & post & E)].
    + exists x. split; [now left|exact H].
    + destruct pre as [|c pre].
      * destruct n as [|c n]; [congruence|].
        simpl in E. injection E as <- _. discriminate.
      * simpl in E. injection E as _ E.
        destruct (IH y) as (item & Hin & Hy); [now exists pre, post|].
        exists item. split; [now right|exact Hy].
Qed.

Lemma keyword_chars (keyword : str) :
  In keyword keywords ->
  ~ In ","%char keyword /\ startswith [" "%char] keyword = false /\
  keyword <> [].
Proof.
  intros H.
  repeat (destruct H as [<-|H];
          [split; [vm_compute; intuition discriminate|];
           split; [reflexivity|discriminate]|]).
  destruct H.
Qed.

(** X19. The filtered text never holds what the filter drops: no
    standalone four-digit number and, up to case, none of the keywords,
    whatever the input. *)
Theorem clean_never_skipped (raw : str) :
  skipped (clean_places_to_visit raw) = false.
Proof.
  destruct raw as [|c raw]; [reflexivity|].
  rewrite clean_unfold by discriminate.
  set (items := items_of (c :: raw)).
  assert (Hkept : Forall (fun item => skipped item = false)
                    (filter keep items)).
  { apply Forall_forall. intros item Hin. apply filter_In in Hin.
    destruct Hin as [_ Hk]. unfold keep in Hk. now apply negb_true_iff. }
  destruct (filter keep items) as [|x xs]; [reflexivity|].
  rewrite Forall_forall in Hkept.
  destruct (skipped (join (L ", ") (x :: xs))) eqn:E; [exfalso|reflexivity].
  unfold skipped in E. apply orb_true_iff in E. destruct E as [E|E].
  - apply has_year_iff, year_of_join in E.
    destruct E as (item & Hin & Hy). apply has_year_iff in Hy.
    specialize (Hkept item Hin). unfold skipped in Hkept.
    now rewrite Hy in Hkept.
  - unfold has_keyword in E. apply existsb_exists in E.
    destruct E as (keyword & Hk & E).
    destruct (@keyword_chars keyword Hk) as (Hc & Hs & Hn).
    apply contains_iff in E. rewrite join_lower in E.
    cbn [map] in E. apply factor_of_join in E; try assumption.
    destruct E as (item & Hin & Hsub).
    change (lower x :: map lower xs) with (map lower (x :: xs)) in Hin.
    apply in_map_iff in Hin. destruct Hin as (item0 & <- & Hin0).
    specialize (Hkept item0 Hin0). unfold skipped in Hkept.
    apply orb_false_iff in Hkept. destruct Hkept as [_ Hkw].
    unfold has_keyword in Hkw.
    assert (Ht : existsb (fun keyword => contains keyword (lower item0))
                   keywords = true).
    { apply existsb_exists. exists keyword. split; [assumption|].
      now apply contains_iff. }
    congruence.
Qed.

(** ** The pieces of the split *)

(** X20. Splitting at the delimiters loses nothing and keeps the order:
    the pieces, put together again, are the text; they are a text piece,
    then delimiter and text piece in turn. *)
Theorem re_split_pieces (info_text : str) :
  concat (re_split pattern info_text) = info_text /\
  alternating true (re_split pattern info_text).
Proof.
  split.
  - unfold re_split. now rewrite split_from_concat by lia.
  - apply split_from_alternating.
Qed.

(** ** The fields that can be asked for *)

Lemma fields_in_catalog (alias field : str) :
  In (alias, field) fields -> In field keys.
Proof.
  intros H.
  repeat (destruct H as [[= <- <-]|H]; [vm_compute; tauto|]).
  destruct H.
Qed.

(** X21. The field that an utterance asks for is always a catalog name,
    and a reply of the provider with good values always has it: the answer
    is the value of that field, and never that the field could not be
    found. *)
Theorem asked_field_is_answered (user_input field : str)
    (v : reply_values) :
  (forall key value,
     In (key, value) (reply_entries v) ->
     delimiter_free value /\ strip value <> []) ->
  detect_field user_input = Some field ->
  In field keys /\
  exists value,
    In (field, value) (reply_entries v) /\
    extract_field (parse_raw_info (build_reply v)) field
    = L "**" ++ field ++ L ":** " ++ shown field (strip value).
Proof.
  intros Hv Hf.
  assert (Hk : In field keys).
  { unfold detect_field in Hf. apply first_field_Some in Hf.
    destruct Hf as (before & alias & after & E & _).
    apply (@fields_in_catalog alias). rewrite E.
    apply in_or_app. right. now left. }
  split; [exact Hk|].
  assert (Hin : exists value, In (field, value) (reply_entries v)).
  { change keys with (map fst (reply_entries v)) in Hk.
    apply in_map_iff in Hk. destruct Hk as ([k value] & E & Hin).
    cbn [fst] in E. subst k. now exists value. }
  destruct Hin as (value & Hin). exists value. split; [exact Hin|].
  assert (Hwf : well_formed (reply_entries v)).
  { intros key val H. split; [|exact (Hv key val H)].
    apply (in_map fst) in H. exact H. }
  assert (Hnd : NoDup (map fst (reply_entries v)))
    by (apply distinct_NoDup; reflexivity).
  rewrite build_reply_lines, (parse_render_trimmed Hwf Hnd).
  apply extract_field_present, dict_get_In.
  - unfold trimmed. now rewrite map_map.
  - unfold trimmed. apply in_map_iff. now exists (field, value).
Qed.

Lemma asked_field_is_answered_witness :
  let v :=
    ReplyValues (L "Tokyo") (L "Japan") (L "35.6895") (L "139.6917")
      (L "UTC+09:00") (L "JPY") (L "Japanese yen") (L "18.2")
      (L "light rain") (L "Senso-ji, Tokyo Tower")
      (L "Tokyo is the capital of Japan.") in
  (forall key value,
     In (key, value) (reply_entries v) ->
     delimiter_free value /\ strip value <> []) /\
  detect_field (L "what time is it in Tokyo")
  = Some (L "Standard Time / Timezone") /\
  In (L "Standard Time / Timezone") keys.
Proof.
  intros v.
  assert (H : forall key value,
            In (key, value) (reply_entries v) ->
            delimiter_free value /\ strip value <> []).
  { assert (Hwf : well_formed (reply_entries v))
      by (unfold v; cbn [reply_entries]; solve_well_formed).
    intros key value Hin. now destruct (Hwf key value Hin). }
  assert (Hf : detect_field (L "what time is it in Tokyo")
               = Some (L "Standard Time / Timezone")) by reflexivity.
  split; [exact H|]. split; [exact Hf|].
  exact (proj1 (@asked_field_is_answered _ _ v H Hf)).
Defined.
